(** * deepinv: compressed sensing, tomography and EPLL reconstruction

    A shallow embedding of
      - [deepinv/diffops/physics/compressed_sensing.py]
        ([hadamard], [dct1], [CompressedSensing]),
      - [deepinv/physics/tomography.py] ([Tomography]),
      - [deepinv/models/epll.py] ([EPLL]).

    Tensor entries are real numbers: every arithmetic operation of the
    source is read in exact arithmetic.  A tensor of shape [(B, n)] is a list
    of [B] rows; Python exceptions are values of [exn] carried by [outcome]. *)

From Stdlib Require Import String.
From Stdlib Require Import Reals Lra Lia ZArith Bool Arith List.
Import ListNotations.

Open Scope R_scope.

(** ** Python exceptions and partial results *)

Inductive exn : Type :=
| AssertionError (msg : string)
| TypeError (missing : list string)
| OverflowError
| ValueError
| IndexError
| RuntimeError
| NameError (name : string)
| UnboundLocalError (name : string).

Inductive outcome (A : Type) : Type :=
| Ok (a : A)
| Raise (e : exn)
| Diverge.

Arguments Ok {A} a.
Arguments Raise {A} e.
Arguments Diverge {A}.

Definition bind {A B : Type} (m : outcome A) (k : A -> outcome B) : outcome B :=
  match m with
  | Ok a => k a
  | Raise e => Raise e
  | Diverge => Diverge
  end.

Notation "x <- m ;; k" := (bind m (fun x => k))
  (at level 61, m at next level, right associativity).

Fixpoint mapM {A B : Type} (f : A -> outcome B) (l : list A) : outcome (list B) :=
  match l with
  | [] => Ok []
  | a :: l' => b <- f a ;; bs <- mapM f l' ;; Ok (b :: bs)
  end.

(** ** Vectors and matrices over the reals *)

Definition vec := list R.
Definition matrix := list vec.

Definition vadd (a b : vec) : vec := map (fun p => fst p + snd p) (combine a b).
Definition vsub (a b : vec) : vec := map (fun p => fst p - snd p) (combine a b).
Definition vmul (a b : vec) : vec := map (fun p => fst p * snd p) (combine a b).
Definition vscale (c : R) (a : vec) : vec := map (fun x => c * x) a.
Definition vdiv (a : vec) (c : R) : vec := map (fun x => x / c) a.

Fixpoint vsum (a : vec) : R :=
  match a with
  | [] => 0
  | x :: a' => x + vsum a'
  end.

Definition dot (a b : vec) : R := vsum (vmul a b).

(** [torch.norm]: the Euclidean norm of the flattened tensor. *)
Definition norm (a : vec) : R := sqrt (dot a a).

(** ** Fast transform primitives *)

Module Hadamard.

(** [x[..., ::2, :]] and [x[..., 1::2, :]] along the row axis. *)
Fixpoint evens {A : Type} (l : list A) : list A :=
  match l with
  | [] => []
  | a :: l' => a :: odds l'
  end
with odds {A : Type} (l : list A) : list A :=
  match l with
  | [] => []
  | _ :: l' => evens l'
  end.

(** Row-wise sum and difference of two stacks of rows. *)
Definition rows_add (a b : matrix) : matrix := map (fun p => vadd (fst p) (snd p)) (combine a b).
Definition rows_sub (a b : matrix) : matrix := map (fun p => vsub (fst p) (snd p)) (combine a b).

(** [torch.cat((a, b), dim=-1)]. *)
Definition cat_last (a b : matrix) : matrix := map (fun p => fst p ++ snd p) (combine a b).

(** One pass of the loop body:
    [x = cat((x[::2] + x[1::2], x[::2] - x[1::2]), dim=-1)]. *)
Definition butterfly (x : matrix) : matrix :=
  cat_last (rows_add (evens x) (odds x)) (rows_sub (evens x) (odds x)).

(** [for d in range(m)[::-1]: x = butterfly x]; the loop variable is unused. *)
Fixpoint butterflies (m : nat) (x : matrix) : matrix :=
  match m with
  | O => x
  | S m' => butterflies m' (butterfly x)
  end.

(** [m = int(np.log2(n))]: [np.log2(0)] is [-inf], which [int] refuses. *)
Definition int_log2 (n : nat) : outcome nat :=
  match n with
  | O => Raise OverflowError
  | _ => Ok (Nat.log2 n)
  end.

(** [2**(m / 2)] with the true division [m / 2]. *)
Definition pow2_half (m : nat) : R := Rpower 2 (INR m / 2).

(** [u[..., np.newaxis]] on one sample of length [n]: shape [(n, 1)]. *)
Definition newaxis (u : vec) : matrix := map (fun x => [x]) u.

(** [x.squeeze(-2)] on one sample: after [m] passes the row axis has size 1. *)
Definition squeeze_row (x : matrix) : vec := concat x.

(** [hadamard(u, normalize)] for [u] of shape [(batch_size, n)]; [n] is the
    second component of [u.shape]. *)
Definition hadamard (n : nat) (u : matrix) (normalize : bool) : outcome matrix :=
  m <- int_log2 n ;;
  if negb (n =? Nat.shiftl 1 m)%nat
  then Raise (AssertionError "n must be a power of 2")
  else
    let x := map (fun row => squeeze_row (butterflies m (newaxis row))) u in
    Ok (if normalize then map (fun row => vdiv row (pow2_half m)) x else x).

End Hadamard.


(** ** Tensors with an explicit shape *)

Record tensor : Type := mkTensor { shape : list nat; data : vec }.

Definition numel (s : list nat) : nat := fold_right Nat.mul 1%nat s.

(** [count] consecutive rows of length [len] cut from a flat buffer. *)
Fixpoint chunks (len count : nat) (d : vec) : matrix :=
  match count with
  | O => []
  | S c => firstn len d :: chunks len c (skipn len d)
  end.

(** [t.reshape(rows, -1)]: the inferred row length is [numel / rows]; the
    reshape is refused when [rows] is 0 or does not divide [numel]. *)
Definition reshape_rows (rows : nat) (t : tensor) : outcome matrix :=
  let len := List.length (data t) in
  if (rows =? 0)%nat || negb (len mod rows =? 0)%nat then Raise RuntimeError
  else Ok (chunks (len / rows) rows (data t)).

(** The rows of a tensor that is used as a matrix without a reshape. *)
Definition rows_2d (t : tensor) : outcome matrix :=
  match shape t with
  | [N; k] => Ok (chunks k N (data t))
  | _ => Raise RuntimeError
  end.

Definition matvec (A : matrix) (v : vec) : vec := map (fun row => dot row v) A.

Definition column (j : nat) (A : matrix) : vec := map (fun row => nth j row 0) A.

(** [A.t()] for a matrix with [n] columns. *)
Definition transpose (n : nat) (A : matrix) : matrix :=
  map (fun j => column j A) (seq 0 n).

Definition zeros (n : nat) : vec := repeat 0 n.

(** [sum_k c[k] * rows[k]], a vector of length [width]. *)
Fixpoint lincomb (width : nat) (c : vec) (rows : matrix) : vec :=
  match c, rows with
  | ck :: c', r :: rows' => vadd (vscale ck r) (lincomb width c' rows')
  | _, _ => zeros width
  end.

(** The matrix product [A @ B] where [B] has [width] columns. *)
Definition matmul (width : nat) (A B : matrix) : matrix :=
  map (fun ra => lincomb width ra B) A.

Definition has_shape (m n : nat) (A : matrix) : Prop :=
  List.length A = m /\ Forall (fun row => List.length row = n) A.

(** The four Moore-Penrose conditions characterising [np.linalg.pinv(A)]
    for an [m x n] matrix [A]. *)
Definition moore_penrose (m n : nat) (A Ad : matrix) : Prop :=
  has_shape m n A /\ has_shape n m Ad /\
  matmul n (matmul m A Ad) A = A /\
  matmul m (matmul n Ad A) Ad = Ad /\
  transpose m (matmul m A Ad) = matmul m A Ad /\
  transpose n (matmul n Ad A) = matmul n Ad A.

Module CS.

(** [x.flip([1])[:, 1:-1]] on one row. *)
Definition flip_inner (x : vec) : vec := removelast (tl (rev x)).

(** The real part of [torch.fft.rfft]: for an input of length [L] the
    outputs [k = 0 .. L/2] are [sum_j x[j] * cos (2 pi j k / L)]. *)
Definition rfft_re (x : vec) : vec :=
  let L := List.length x in
  map (fun k =>
         vsum (map (fun j => nth j x 0 * cos (2 * PI * INR j * INR k / INR L))
                   (seq 0 L)))
      (seq 0 (L / 2 + 1)).

(** [dct1] on one row of length [n]. *)
Definition dct1 (x : vec) : vec :=
  let n := List.length x in
  vdiv (rfft_re (x ++ flip_inner x)) (sqrt (2 * (INR n - 1))).

(** [y[:, mask]] on one row. *)
Fixpoint select (mask : list bool) (y : vec) : vec :=
  match mask, y with
  | b :: mask', v :: y' => if b then v :: select mask' y' else select mask' y'
  | _, _ => []
  end.

(** [y2 = zeros(n); y2[mask] = y] on one row. *)
Fixpoint scatter (mask : list bool) (y : vec) : vec :=
  match mask with
  | [] => []
  | true :: mask' =>
      match y with
      | v :: y' => v :: scatter mask' y'
      | [] => 0 :: scatter mask' []
      end
  | false :: mask' => 0 :: scatter mask' y
  end.

Definition count_true (mask : list bool) : nat :=
  List.length (filter (fun b => b) mask).

(** The fields set by [__init__]: the fast branch stores [n], [D] and
    [mask]; the dense branch stores [_A], [_A_dagger] and [_A_adjoint]. *)
Inductive sampling : Type :=
| Fast (n : nat) (D : vec) (mask : list bool)
| Dense (m n : nat) (_A _A_dagger _A_adjoint : matrix).

Record CompressedSensing : Type := mkCS {
  img_shape : nat * nat * nat;
  channelwise : bool;
  mode : sampling
}.

(** [__init__] with [fast=False]; [A] is the Gaussian draw and [A_dagger]
    the value of [np.linalg.pinv(A)]. *)
Definition init_dense (m : nat) (img_shape : nat * nat * nat) (channelwise : bool)
           (A A_dagger : matrix) : CompressedSensing :=
  let '(C, H, W) := img_shape in
  let n := if channelwise then (H * W)%nat else (C * H * W)%nat in
  mkCS img_shape channelwise (Dense m n A A_dagger (transpose n A)).

(** [__init__] with [fast=True]; [D] and [mask] are the random draws. *)
Definition init_fast (img_shape : nat * nat * nat) (channelwise : bool)
           (D : vec) (mask : list bool) : CompressedSensing :=
  let '(C, H, W) := img_shape in
  let n := if channelwise then (H * W)%nat else (C * H * W)%nat in
  mkCS img_shape channelwise (Fast n D mask).

(** Apply a row operator to every row, checking the row length that the
    broadcast or the [einsum] needs. *)
Definition on_rows (need : nat) (f : vec -> vec) (rows : matrix) : outcome matrix :=
  mapM (fun r => if (List.length r =? need)%nat then Ok (f r) else Raise RuntimeError) rows.

Definition row_len (rows : matrix) : nat :=
  match rows with
  | [] => 0%nat
  | r :: _ => List.length r
  end.

Definition A (op : CompressedSensing) (x : tensor) : outcome tensor :=
  match shape x with
  | N :: C :: _ =>
      rows <- reshape_rows (if channelwise op then N * C else N)%nat x ;;
      y <- match mode op with
           | Fast n D mask => on_rows n (fun r => select mask (dct1 (vmul r D))) rows
           | Dense m n _A _ _ => on_rows n (matvec _A) rows
           end ;;
      Ok (mkTensor (if channelwise op then [N; C; row_len y] else [N; row_len y])
                   (concat y))
  | _ => Raise ValueError
  end.

Definition A_adjoint (op : CompressedSensing) (y : tensor) : outcome tensor :=
  match shape y with
  | N :: _ =>
      let '(C, H, W) := img_shape op in
      let N2 := (N * C)%nat in
      rows <- (if channelwise op then reshape_rows N2 y else rows_2d y) ;;
      x <- match mode op with
           | Fast n D mask =>
               on_rows (count_true mask) (fun r => vmul (dct1 (scatter mask r)) D) rows
           | Dense m n _ _ _A_adjoint => on_rows m (matvec _A_adjoint) rows
           end ;;
      if (List.length (concat x) =? N * C * H * W)%nat
      then Ok (mkTensor [N; C; H; W] (concat x))
      else Raise RuntimeError
  | [] => Raise IndexError
  end.

Definition A_dagger (op : CompressedSensing) (y : tensor) : outcome tensor :=
  match mode op with
  | Fast _ _ _ => A_adjoint op y
  | Dense m n _ _A_dagger _ =>
      match shape y with
      | N :: _ =>
          let '(C, H, W) := img_shape op in
          rows <- (if channelwise op then reshape_rows (N * C) y else rows_2d y) ;;
          x <- on_rows m (matvec _A_dagger) rows ;;
          if (List.length (concat x) =? N * C * H * W)%nat
          then Ok (mkTensor [N; C; H; W] (concat x))
          else Raise RuntimeError
      | [] => Raise IndexError
      end
  end.


(** What a call of [power_method] leaves behind: the returned estimate,
    the number of loop bodies that were run and the iterations at which the
    convergence message was printed. *)
Record report : Type := mkReport {
  value : R;
  iterations : nat;
  printed : list nat
}.

(** [return z]: the name is unbound when the loop body never ran. *)
Definition return_z (z : option R) (iters : nat) (log : list nat) : outcome report :=
  match z with
  | Some v => Ok (mkReport v iters log)
  | None => Raise (UnboundLocalError "z")
  end.

(** The [for it in range(max_iter)] loop with [todo] iterations left.
    [zold] is a tensor: [zeros_like(x)] at first, the 0-dimensional [z]
    afterwards, and [z - zold] broadcasts over it. *)
Fixpoint power_iterations (op : CompressedSensing) (tol : R) (verbose : bool)
         (todo it : nat) (x : tensor) (zold : vec) (z : option R)
  : outcome report :=
  match todo with
  | O => return_z z it []
  | S todo' =>
      y <- A op x ;;
      y <- A_adjoint op y ;;
      let z' := dot (data x) (data y) / (norm (data x)) ^ 2 in
      let rel_var := norm (map (fun o => z' - o) zold) in
      if (if Rlt_dec rel_var tol then true else false) && verbose
      then return_z (Some z') (S it) [it]
      else power_iterations op tol verbose todo' (S it)
                (mkTensor (shape y) (vdiv (data y) (norm (data y)))) [z'] (Some z')
  end.

(** [power_method(x0, max_iter, tol, verbose)]; [randn] is the draw of
    [torch.randn_like(x0)], a tensor of the shape of [x0]. *)
Definition power_method (op : CompressedSensing) (randn : vec) (x0 : tensor)
           (max_iter : Z) (tol : R) (verbose : bool) : outcome report :=
  let x := mkTensor (shape x0) (vdiv randn (norm randn)) in
  let zold := zeros (List.length (data x)) in
  power_iterations op tol verbose (Z.to_nat max_iter) 0 x zold None.

(** [adjointness_test(u)]; [v] is the draw of [torch.randn_like(Au)]. *)
Definition adjointness_test (op : CompressedSensing) (v : vec) (u : tensor) : outcome R :=
  Au <- A op u ;;
  let v := mkTensor (shape Au) v in
  Atv <- A_adjoint op v ;;
  let s1 := dot (data v) (data Au) in
  let s2 := dot (data Atv) (data u) in
  Ok (s1 - s2).

End CS.

(** ** Tomography operator *)

Module Tomography.

(** [torch.linspace(start, end, steps)] in exact arithmetic: [steps] points
    from [start] to [end] inclusive; a negative [steps] is refused. *)
Definition linspace (start stop : R) (steps : Z) : outcome vec :=
  if (steps <? 0)%Z then Raise RuntimeError
  else
    let n := Z.to_nat steps in
    Ok (map (fun i => start + INR i * ((stop - start) / (INR n - 1))) (seq 0 n)).

(** The [angles] argument: a number of angles or an explicit tensor. *)
Inductive angles_arg : Type :=
| AngleCount (k : Z)
| AngleTensor (t : vec).

Definition image_size_unknown : string :=
  "Image size unknown. Apply forward operator or add it for initialization.".

Section Operator.

(** The projectors of [deepinv.physics.functional] and the numerical
    adjoint builder of [deepinv.physics] are collaborators of this class. *)
Variable radon : vec -> tensor -> outcome tensor.
Variable iradon : vec -> bool -> tensor -> outcome tensor.
Variable ramp_filter : tensor -> tensor.
Variable adjoint_function :
  (tensor -> outcome tensor) -> list nat -> tensor -> outcome tensor.

(** The attributes of a [Tomography] object that the methods read or write. *)
Record state : Type := mkState {
  fan_beam : bool;
  img_width : option nat;
  theta : vec
}.

(** [__init__]: lines 92-98 resolve [theta], the rest stores the fields. *)
Definition init (angles : angles_arg) (img_width : option nat) (fan_beam : bool)
  : outcome state :=
  theta <- match angles with
           | AngleCount k => l <- linspace 0 180 (k + 1) ;; Ok (removelast l)
           | AngleTensor t => Ok t
           end ;;
  Ok (mkState fan_beam img_width theta).

(** [x.shape[-1]]. *)
Definition last_dim (x : tensor) : outcome nat :=
  match rev (shape x) with
  | [] => Raise IndexError
  | w :: _ => Ok w
  end.

(** [A]: resolves the image width on first use, then projects.  The
    object after the call is returned next to the result. *)
Definition A (s : state) (x : tensor) : state * outcome tensor :=
  match img_width s with
  | None =>
      match last_dim x with
      | Ok w => let s' := mkState (fan_beam s) (Some w) (theta s) in
                (s', radon (theta s') x)
      | Raise e => (s, Raise e)
      | Diverge => (s, Diverge)
      end
  | Some _ => (s, radon (theta s) x)
  end.

Definition A_adjoint (s : state) (y : tensor) : outcome tensor :=
  if fan_beam s then
    match img_width s with
    | None => Raise (AssertionError image_size_unknown)
    | Some w =>
        match shape y with
        | b :: c :: _ =>
            adjoint_function (fun x => snd (A s x)) [b; c; w; w] y
        | _ => Raise IndexError
        end
    end
  else iradon (theta s) false y.

Definition A_dagger (s : state) (y : tensor) : outcome tensor :=
  if fan_beam s then A_adjoint s (ramp_filter y)
  else iradon (theta s) true y.

End Operator.

End Tomography.

(** ** Patch-prior reconstruction (EPLL) *)

Module EPLL.

(** The names that the module [epll.py] binds at top level: its imports
    ([import torch.nn as nn], [import torch],
    [from .gmm import GaussianMixtureModel],
    [from deepinv.utils import patch_extractor]) and the class it defines. *)
Definition module_globals : list string :=
  ["nn"; "torch"; "GaussianMixtureModel"; "patch_extractor"; "EPLL"]%string.

(** Reading a global name inside a method of the module. *)
Definition global_name (name : string) : outcome unit :=
  if existsb (String.eqb name) module_globals then Ok tt
  else Raise (NameError name).

(** A forward operator as [reconstruction] uses it. *)
Record LinearPhysics : Type := mkPhysics {
  A : tensor -> outcome tensor;
  A_adjoint : tensor -> outcome tensor
}.

(** [range(a, b)]. *)
Definition py_range (a b : Z) : list Z :=
  map (fun i => (a + Z.of_nat i)%Z) (seq 0 (Z.to_nat (b - a))).

(** [t[idx]] with a tensor of indices, on the flat buffer. *)
Definition gather (t : vec) (idx : list nat) : outcome vec :=
  mapM (fun i => if (i <? List.length t)%nat then Ok (nth i t 0) else Raise IndexError) idx.

(** The values that an index assignment writes to position [p]. *)
Definition candidates (p : nat) (idx : list nat) (vals : vec) : vec :=
  map snd (filter (fun iv => (fst iv =? p)%nat) (combine idx vals)).

Section Model.

(** Which write survives when an index assignment names one position
    several times: [index_put_] without [accumulate] keeps one of the
    written values ([last] on a sequential device). *)
Variable pick : vec -> R.

(** [t[idx] = vals]. *)
Definition index_put (t : vec) (idx : list nat) (vals : vec) : vec :=
  map (fun p => match candidates p idx vals with
                | [] => nth p t 0
                | c => pick c
                end)
      (seq 0 (List.length t)).

(** [t[idx] += vals], that is [t[idx] = t[idx] + vals]: the old values
    are read once, before any write. *)
Definition index_iadd (t : vec) (idx : list nat) (vals : vec) : outcome vec :=
  old <- gather t idx ;;
  Ok (index_put t idx (vadd old vals)).

(** Modelled from the spec: [deepinv.utils.patch_extractor] is missing
    from the sources.  A patch with linear position [q] in a [C x N x M]
    image has its top-left corner at row [q // (M - p + 1)] and column
    [q % (M - p + 1)] (the convention of [PatchDataset.__getitem__]); its
    pixels are listed channel by channel, row by row, with their flat
    indices into the image. *)
Definition patch_linear_inds (C N M p : nat) (q : Z) : list nat :=
  let h := Z.to_nat (q / (Z.of_nat M - Z.of_nat p + 1)) in
  let w := Z.to_nat (q mod (Z.of_nat M - Z.of_nat p + 1)) in
  flat_map (fun c =>
    flat_map (fun i =>
      map (fun j => (c * (N * M) + (h + i) * M + (w + j))%nat) (seq 0 p))
      (seq 0 p))
    (seq 0 C).

Definition patch_extractor (x : vec) (C N M p : nat) (position_inds_linear : list Z)
  : outcome (matrix * list (list nat)) :=
  let linear_inds := map (patch_linear_inds C N M p) position_inds_linear in
  patches <- mapM (gather x) linear_inds ;;
  Ok (patches, linear_inds).

(** The Gaussian mixture of [deepinv.models.gmm], read through the calls
    that [_reconstruction_step] makes after [set_cov_reg(reg)]:
    [get_cov()], [get_cov_inv_reg()] and, patch by patch,
    [classify(., cov_regularization=True)]. *)
Variable get_cov : list matrix.
Variable get_cov_inv_reg : R -> list matrix.
Variable classify : R -> vec -> nat.

(** [deepinv.optim.utils.conjugate_gradient(op, rhs, max_iter, tol)], the
    solver that line 107 names. *)
Variable conjugate_gradient :
  (tensor -> outcome tensor) -> tensor -> R -> R -> outcome tensor.

(** [self.patch_size]. *)
Variable patch_size : nat.

(** [torch.bmm] of two stacks of [d x d] matrices. *)
Definition bmm (d : nat) (a b : list matrix) : list matrix :=
  map (fun p => matmul d (fst p) (snd p)) (combine a b).

(** [estimation_matrices[k_star]] followed by the product with the patch. *)
Definition estimate (ms : list matrix) (k : nat) (patch : vec) : outcome vec :=
  match nth_error ms k with
  | Some m => Ok (matvec m patch)
  | None => Raise IndexError
  end.

(** The accumulators of the batching loop. *)
Record accum : Type := mkAccum {
  x_tilde_flattened : vec;
  patch_multiplicities : vec
}.

(** The [while ind < total_patch_number] loop of lines 81-100 on an
    image batch of shape [(B, C, N, M)].  The reshapes of lines 86-87 and
    the update of line 99 fit together only when [B] is 1.  [fuel] bounds
    the number of passes; running out of it stands for a loop that does
    not advance. *)
Fixpoint batching_loop (fuel : nat) (reg : R) (x : vec) (B C N M : nat)
         (batch_size total_patch_number ind : Z) (acc : accum) : outcome accum :=
  if (ind <? total_patch_number)%Z then
    match fuel with
    | O => Diverge
    | S fuel' =>
        let n_patches := Z.min batch_size (total_patch_number - ind) in
        let patch_inds := py_range ind (ind + n_patches) in
        pl <- patch_extractor x C N M patch_size patch_inds ;;
        let '(patches, linear_inds) := pl in
        if negb (B =? 1)%nat then Raise RuntimeError
        else
          let k_star := map (classify reg) patches in
          let d := (C * patch_size * patch_size)%nat in
          let estimation_matrices := bmm d (get_cov_inv_reg reg) get_cov in
          patch_estimates <-
            mapM (fun kp => estimate estimation_matrices (fst kp) (snd kp))
                 (combine k_star patches) ;;
          let idx := concat linear_inds in
          pm <- index_iadd (patch_multiplicities acc) idx (repeat 1 (List.length idx)) ;;
          xt <- index_iadd (x_tilde_flattened acc) idx (concat patch_estimates) ;;
          batching_loop fuel' reg x B C N M batch_size total_patch_number
                        (ind + n_patches) (mkAccum xt pm)
    end
  else Ok acc.

(** Lines 69-102 of [_reconstruction_step]: the consensus image
    [x_tilde_flattened] after the division by [patch_multiplicities]. *)
Definition x_tilde (x : tensor) (beta : R) (batch_size : Z) : outcome vec :=
  let reg := 1 / beta in
  match shape x with
  | [B; C; N; M] =>
      let total_patch_number :=
        ((Z.of_nat N - Z.of_nat patch_size + 1) * (Z.of_nat M - Z.of_nat patch_size + 1))%Z in
      let batch_size :=
        if ((batch_size =? -1) || (total_patch_number <? batch_size))%Z
        then total_patch_number else batch_size in
      let zero := zeros (List.length (data x)) in
      acc <- batching_loop (Z.to_nat total_patch_number) reg (data x) B C N M
                           batch_size total_patch_number 0 (mkAccum zero zero) ;;
      Ok (map (fun p => fst p / snd p)
              (combine (x_tilde_flattened acc) (patch_multiplicities acc)))
  | _ => Raise ValueError
  end.

Definition tensor_add (a b : tensor) : tensor := mkTensor (shape a) (vadd (data a) (data b)).
Definition tensor_scale (c : R) (a : tensor) : tensor := mkTensor (shape a) (vscale c (data a)).

Definition _reconstruction_step (Aty x : tensor) (sigma_sq beta : R)
           (physics : LinearPhysics) (batch_size : Z) : outcome tensor :=
  xt <- x_tilde x beta batch_size ;;
  let rhs := tensor_add Aty (tensor_scale (beta * sigma_sq) (mkTensor (shape x) xt)) in
  let op := fun im =>
    Aim <- A physics im ;;
    AtAim <- A_adjoint physics Aim ;;
    Ok (tensor_add AtAim (tensor_scale (beta * sigma_sq) im)) in
  _ <- global_name "deepinv" ;;
  conjugate_gradient op rhs 100 (1 / 100000).

(** The arguments of one call of [reconstruction], each present or not. *)
Record call : Type := mkCall {
  arg_y : option tensor;
  arg_x_init : option tensor;
  arg_sigma_sq : option R;
  arg_physics : option LinearPhysics;
  arg_betas : option (list R);
  arg_batch_size : option Z
}.

Definition unbound {T : Type} (a : option T) : bool :=
  match a with
  | Some _ => false
  | None => true
  end.

(** The required parameters of [reconstruction] that a call leaves unbound,
    in the order of the signature. *)
Definition missing_arguments (c : call) : list string :=
  (if unbound (arg_y c) then ["y"%string] else []) ++
  (if unbound (arg_x_init c) then ["x_init"%string] else []) ++
  (if unbound (arg_sigma_sq c) then ["sigma_sq"%string] else []) ++
  (if unbound (arg_physics c) then ["physics"%string] else []).

(** [betas] after lines 55-57. *)
Definition default_betas (sigma_sq : R) : list R :=
  map (fun beta => beta / sigma_sq) [1; 4; 8; 16; 32].

Definition resolve_betas (betas : option (list R)) (sigma_sq : R) : list R :=
  match betas with
  | None => default_betas sigma_sq
  | Some b => b
  end.

(** [t[i:i+1]] along the first dimension. *)
Definition slice1 (t : tensor) (i : nat) : tensor :=
  match shape t with
  | B :: rest =>
      let stride := numel rest in
      mkTensor (Nat.min 1 (B - i) :: rest) (firstn stride (skipn (i * stride) (data t)))
  | [] => t
  end.

Definition same_shape (a b : list nat) : bool :=
  if list_eq_dec Nat.eq_dec a b then true else false.

(** [torch.cat(ts, 0)]. *)
Definition torch_cat (ts : list tensor) : outcome tensor :=
  match ts with
  | [] => Raise RuntimeError
  | t :: _ =>
      if forallb (fun u => same_shape (tl (shape u)) (tl (shape t))) ts
      then Ok (mkTensor (fold_right Nat.add 0%nat (map (fun u => hd 0%nat (shape u)) ts)
                           :: tl (shape t))
                        (concat (map data ts)))
      else Raise RuntimeError
  end.

(** The loop of lines 63-64. *)
Fixpoint splitting (Aty x : tensor) (sigma_sq : R) (physics : LinearPhysics)
         (batch_size : Z) (betas : list R) : outcome tensor :=
  match betas with
  | [] => Ok x
  | beta :: betas' =>
      x' <- _reconstruction_step Aty x sigma_sq beta physics batch_size ;;
      splitting Aty x' sigma_sq physics batch_size betas'
  end.

(** [reconstruction]; [depth] bounds the nesting of the calls the method
    makes to itself. *)
Fixpoint reconstruction (depth : nat) (c : call) : outcome tensor :=
  match c with
  | mkCall (Some y) (Some x_init) (Some sigma_sq) (Some physics) betas batch_size =>
      match depth with
      | O => Diverge
      | S depth' =>
          let betas := resolve_betas betas sigma_sq in
          let batch_size := match batch_size with Some b => b | None => (-1)%Z end in
          match shape y with
          | [] => Raise IndexError
          | B :: _ =>
              if (1 <? B)%nat then
                parts <- mapM (fun i =>
                                 reconstruction depth'
                                   (mkCall (Some (slice1 y i)) (Some (slice1 x_init i))
                                           None None (Some betas) (Some batch_size)))
                              (seq 0 B) ;;
                torch_cat parts
              else
                Aty <- A_adjoint physics y ;;
                splitting Aty x_init sigma_sq physics batch_size betas
          end
      end
  | _ => Raise (TypeError (missing_arguments c))
  end.

End Model.

End EPLL.

(** ** Patch dataset *)

Module PatchData.

(** The ways a method of [PatchDataset] fails. *)
Inductive failure : Type :=
| ZeroDivision
| IndexOutOfRange
| AssertionFailed.

(** [s in t] for two strings: [s] occurs in [t] as a contiguous block. *)
Fixpoint occurs_in (s t : string) : bool :=
  String.prefix s t ||
  match t with
  | EmptyString => false
  | String _ t' => occurs_in s t'
  end.

(** The [transforms] argument: [None], a string or a callable. *)
Inductive transforms_arg : Type :=
| NoTransforms
| Named (s : string)
| Callable (f : vec -> vec).

Record PatchDataset : Type := mkDataset {
  imgs : tensor;
  patch_size : Z;
  patches_per_image : Z;
  transforms : option (vec -> vec)
}.

(** [t.shape[k]]. *)
Definition dim (k : nat) (t : tensor) : failure + Z :=
  match nth_error (shape t) k with
  | Some d => inr (Z.of_nat d)
  | None => inl IndexOutOfRange
  end.

Section Dataset.

(** The composition of random flips and a rotation that [__init__] builds
    for the string argument. *)
Variable flip_and_rotate : vec -> vec.

Definition init (imgs : tensor) (patch_size : Z) (t : transforms_arg)
  : failure + PatchDataset :=
  match dim 2 imgs, dim 3 imgs with
  | inr H, inr W =>
      let patches_per_image := ((H - patch_size + 1) * (W - patch_size + 1))%Z in
      match t with
      | Named s =>
          if occurs_in s "flip and rotate"
          then inr (mkDataset imgs patch_size patches_per_image (Some flip_and_rotate))
          else inl AssertionFailed
      | Callable f => inr (mkDataset imgs patch_size patches_per_image (Some f))
      | NoTransforms => inr (mkDataset imgs patch_size patches_per_image None)
      end
  | inl e, _ => inl e
  | _, inl e => inl e
  end.

Definition len (ds : PatchDataset) : failure + Z :=
  match dim 0 (imgs ds) with
  | inr B => inr (B * patches_per_image ds)%Z
  | inl e => inl e
  end.

(** The bounds of the slice [a:b] of an axis of length [n]. *)
Definition slice_bound (i : Z) (n : nat) : Z :=
  if (i <? 0)%Z then Z.max (i + Z.of_nat n) 0 else Z.min i (Z.of_nat n).

Definition py_slice (a b : Z) (n : nat) : list nat :=
  seq (Z.to_nat (slice_bound a n))
      (Z.to_nat (slice_bound b n - slice_bound a n)).

(** [idx_img], [idx_x] and [idx_y] of lines 27-30; [w] is
    [imgs.shape[3] - patch_size + 1]. *)
Definition position (ppi w idx : Z) : Z * Z * Z :=
  (idx / ppi, (idx mod ppi) / w, (idx mod ppi) mod w)%Z.

(** [__getitem__]: line 27 divides by [patches_per_image], line 29 reads
    [imgs.shape[3]] and divides again, line 31 indexes the image and slices
    rows and columns, keeping every further dimension whole. *)
Definition getitem (ds : PatchDataset) (idx : Z) : failure + (vec * Z) :=
  let ppi := patches_per_image ds in
  if (ppi =? 0)%Z then inl ZeroDivision
  else
    match dim 3 (imgs ds) with
    | inl e => inl e
    | inr W3 =>
        let w := (W3 - patch_size ds + 1)%Z in
        if (w =? 0)%Z then inl ZeroDivision
        else
          let '(idx_img, idx_x, idx_y) := position ppi w idx in
          match shape (imgs ds) with
          | B :: C :: H :: W :: rest =>
              if (idx_img <? - Z.of_nat B)%Z || (Z.of_nat B <=? idx_img)%Z
              then inl IndexOutOfRange
              else
                let K := fold_right Nat.mul 1%nat rest in
                let b := Z.to_nat (idx_img mod Z.of_nat B) in
                let patch :=
                  flat_map (fun c =>
                    flat_map (fun i =>
                      flat_map (fun j =>
                        map (fun k =>
                               nth ((((b * C + c) * H + i) * W + j) * K + k)
                                   (data (imgs ds)) 0)
                            (seq 0 K))
                        (py_slice idx_y (idx_y + patch_size ds) W))
                      (py_slice idx_x (idx_x + patch_size ds) H))
                    (seq 0 C) in
                let patch :=
                  match transforms ds with
                  | Some f => if false then f patch else patch
                  | None => patch
                  end in
                inr (patch, idx)
          | _ => inl IndexOutOfRange
          end
    end.

End Dataset.

End PatchData.

(** ** The constructor of the patch prior *)

Module EPLLInit.

(** [s[-k:]]: the last [k] characters of [s], all of [s] when it is shorter. *)
Definition last_chars (k : nat) (s : string) : string :=
  String.substring (String.length s - k) k s.

Section Init.

(** The mixture class, [torch.load] and [load_parameter_dict] are
    collaborators; each may fail with an error of its own. *)
Variable GMM : Type.
Variable weights : Type.
Variable error : Type.
Variable GaussianMixtureModel : Z -> Z -> error + GMM.
Variable torch_load : string -> error + weights.
Variable load_parameter_dict : GMM -> weights -> error + GMM.

Record EPLL : Type := mkEPLL { gmm : GMM; patch_size : Z }.

(** [__init__] builds the object, raises [NotImplementedError], or passes on
    the error of a collaborator. *)
Inductive built : Type :=
| Built (e : EPLL)
| NotImplementedError
| Failed (e : error).

(** [__init__(GMM, pretrained_weights, patch_size, channels)]; a string is
    true when it is not empty. *)
Definition init (g : option GMM) (pretrained_weights : option string)
           (patch_size channels : Z) : built :=
  match (match g with
         | None => GaussianMixtureModel 200 (patch_size ^ 2 * channels)
         | Some g => inr g
         end) with
  | inl e => Failed e
  | inr g =>
      match pretrained_weights with
      | None => Built (mkEPLL g patch_size)
      | Some path =>
          if String.eqb path EmptyString then Built (mkEPLL g patch_size)
          else if String.eqb (last_chars 3 path) ".pt" then
            match torch_load path with
            | inl e => Failed e
            | inr w =>
                match load_parameter_dict g w with
                | inl e => Failed e
                | inr g' => Built (mkEPLL g' patch_size)
                end
            end
          else NotImplementedError
      end
  end.

End Init.

End EPLLInit.

(** ** The loss of one batch in the training loops *)

Module Training.

(** What [loss] holds: the integer [0] it starts as, or a tensor once a
    term has been added. *)
Inductive loss_value : Type :=
| IntZero
| Tensor (v : R).

(** The argument lists a loss is called on. *)
Inductive loss_call : Type :=
| On_x1_y0
| On_y0_f
| On_x1_x
| On_y0_y1_f
| On_x1_f.

(** A loss of [loss_closure]: its [name], and its value on each argument
    list for the batch at hand. *)
Record loss_fn : Type := mkLoss {
  name : string;
  run : loss_call -> R
}.

Inductive failure : Type :=
| TypeError
| AttributeError
| UnboundLocalError (var : string).

(** [loss += t]. *)
Definition iadd (loss : loss_value) (t : R) : loss_value :=
  match loss with
  | IntZero => Tensor (0 + t)
  | Tensor v => Tensor (v + t)
  end.

(** The five tests of lines 149-158 (and 226-235) for one loss [l] of
    weight [w]. *)
Definition add_loss (loss : loss_value) (l : loss_fn) (w : R) : loss_value :=
  let loss := if String.eqb (name l) "mc"
              then iadd loss (w * run l On_x1_y0) else loss in
  let loss := if String.eqb (name l) "ms"
              then iadd loss (w * run l On_y0_f) else loss in
  let loss := if String.eqb (name l) "sup"
              then iadd loss (w * run l On_x1_x) else loss in
  let loss := if String.prefix "sure" (name l)
              then iadd loss (w * run l On_y0_y1_f) else loss in
  let loss := if String.eqb (name l) "ei" || String.eqb (name l) "rei"
              then iadd loss (w * run l On_x1_f) else loss in
  loss.

(** [loss.item()]: an integer has no such method. *)
Definition item (loss : loss_value) : failure + R :=
  match loss with
  | IntZero => inl AttributeError
  | Tensor v => inr v
  end.

(** Lines 147-158 of [train]: the loop over [zip(loss_closure, loss_weight)]. *)
Definition train_loss (loss_closure : list loss_fn) (loss_weight : list R) : loss_value :=
  fold_left (fun loss lw => add_loss loss (fst lw) (snd lw))
            (combine loss_closure loss_weight) IntZero.

(** Lines 147-160 of [train]: the value handed to [losses.update].  Both
    arguments default to [None], which [zip] cannot iterate. *)
Definition train_batch (loss_closure : option (list loss_fn))
           (loss_weight : option (list R)) : failure + R :=
  match loss_closure, loss_weight with
  | Some ls, Some ws => item (train_loss ls ws)
  | _, _ => inl TypeError
  end.

(** Lines 189-190 of [debug]: the meters [losses_verbos], by their names;
    the name is bound only when [verbos] is set, and the comprehension
    iterates [loss_closure]. *)
Definition verbose_meters (verbos : bool) (loss_closure : option (list loss_fn))
  : failure + option (list string) :=
  if verbos then
    match loss_closure with
    | Some ls => inr (Some (map (fun l => ("loss_" ++ name l)%string) ls))
    | None => inl TypeError
    end
  else inr None.

(** Lines 225-236 of [debug]: every pass ends with [v.update(loss.item())].
    [log] collects the updates, a meter and the value it is given. *)
Fixpoint debug_loop (zipped : list (loss_fn * R * string)) (loss : loss_value)
         (log : list (string * R)) : failure + (loss_value * list (string * R)) :=
  match zipped with
  | [] => inr (loss, log)
  | (l, w, v) :: rest =>
      let loss := add_loss loss l w in
      match item loss with
      | inl e => inl e
      | inr x => debug_loop rest loss (log ++ [(v, x)])
      end
  end.

(** Lines 189-190 and 224-238 of [debug]: the updates of the verbose meters
    and the value handed to [losses.update].  The arguments of [zip] are
    evaluated before it is called. *)
Definition debug_batch (verbos : bool) (loss_closure : option (list loss_fn))
           (loss_weight : option (list R)) : failure + (list (string * R) * R) :=
  match verbose_meters verbos loss_closure with
  | inl e => inl e
  | inr None => inl (UnboundLocalError "losses_verbos")
  | inr (Some losses_verbos) =>
      match loss_closure, loss_weight with
      | Some ls, Some ws =>
          match debug_loop (combine (combine ls ws) losses_verbos) IntZero [] with
          | inl e => inl e
          | inr (loss, log) =>
              match item loss with
              | inl e => inl e
              | inr x => inr (log, x)
              end
          end
      | _, _ => inl TypeError
      end
  end.

End Training.

(** ** Reference definitions and concrete inputs *)

(** The Hadamard matrix of order [2^m] as the spec names it, by
    Sylvester's doubling: [H_(2n) = [[H_n, H_n], [H_n, -H_n]]]. *)
Fixpoint sylvester (m : nat) : matrix :=
  match m with
  | O => [[1]]
  | S m' =>
      let H := sylvester m' in
      map (fun r => r ++ r) H ++ map (fun r => r ++ map Ropp r) H
  end.

(** The normalized transform applied twice. *)
Definition hadamard_twice (n : nat) (u : matrix) : outcome matrix :=
  h <- Hadamard.hadamard n u true ;; Hadamard.hadamard n h true.

(** A 1 x 1 dense operator with sampling matrix [[1]] and a start tensor. *)
Definition unit_op : CS.CompressedSensing :=
  CS.init_dense 1 (1, 1, 1)%nat false [[1]] [[1]].

Definition unit_shape : list nat := [1; 1; 1; 1]%nat.

(** A fast operator on 1 x 1 x 3 images that keeps every coefficient and
    flips no sign. *)
Definition fast3 : CS.CompressedSensing :=
  CS.init_fast (1, 1, 3)%nat false [1; 1; 1] [true; true; true].

(** A mixture with one component of covariance [J4] (all entries 1) on
    2 x 2 patches; [J4_inv_reg reg] is the inverse of [J4 + reg * I]. *)
Definition J4 : matrix := [[1; 1; 1; 1]; [1; 1; 1; 1]; [1; 1; 1; 1]; [1; 1; 1; 1]].

Definition J4_inv_reg (reg : R) : matrix :=
  let a := (1 - 1 / (reg + 4)) / reg in
  let b := - (1 / (reg + 4)) / reg in
  [[a; b; b; b]; [b; a; b; b]; [b; b; a; b]; [b; b; b; a]].

Definition J4_reg (reg : R) : matrix :=
  [[1 + reg; 1; 1; 1]; [1; 1 + reg; 1; 1]; [1; 1; 1 + reg; 1]; [1; 1; 1; 1 + reg]].

Definition I4 : matrix := [[1; 0; 0; 0]; [0; 1; 0; 0]; [0; 0; 1; 0]; [0; 0; 0; 1]].

(** A 2 x 3 image with one channel; its two 2 x 2 patches share the
    middle column. *)
Definition img23 : tensor := mkTensor [1; 1; 2; 3]%nat [1; 0; 0; 0; 0; 0].

(** [x_tilde] of [img23] under the one-component mixture, for patches of
    size 2. *)
Definition x_tilde23 (pick : vec -> R) (batch_size : Z) : outcome vec :=
  EPLL.x_tilde pick [J4] (fun reg => [J4_inv_reg reg]) (fun _ _ => 0%nat) 2
               img23 1 batch_size.

(** Every duplicate-index assignment keeps one of the values written. *)
Definition keeps_a_write (pick : vec -> R) : Prop :=
  forall c cs, In (pick (c :: cs)) (c :: cs).

(** The sequential resolution: the last write survives. *)
Definition last_write (c : vec) : R := last c 0.

(** Stand-ins for the collaborators, used where a fact is run on a
    concrete input. *)
Definition id_radon (theta : vec) (x : tensor) : outcome tensor := Ok x.

Definition id_iradon (theta : vec) (filtering : bool) (y : tensor) : outcome tensor := Ok y.

Definition reshape_adjoint (f : tensor -> outcome tensor) (sh : list nat) (y : tensor)
  : outcome tensor :=
  Ok (mkTensor sh (data y)).

Definition id_physics : EPLL.LinearPhysics :=
  EPLL.mkPhysics (fun x => Ok x) (fun y => Ok y).

Definition cg_rhs (op : tensor -> outcome tensor) (rhs : tensor) (max_iter tol : R)
  : outcome tensor :=
  Ok rhs.

(** Two 2 x 3 images in one batch. *)
Definition batch2 : tensor :=
  mkTensor [2; 1; 2; 3]%nat [1; 0; 0; 0; 0; 0; 0; 1; 0; 0; 0; 0].

(** A 1 x 2 sampling matrix and its pseudo-inverse. *)
Definition row11 : matrix := [[1; 1]].
Definition row11_pinv : matrix := [[1 / 2]; [1 / 2]].

(** [c * a + b] on vectors. *)
Definition lin (c : R) (a b : vec) : vec := vadd (vscale c a) b.

(** What [CompressedSensing.A] does to one row, and the row length it
    needs. *)
Definition row_map (op : CS.CompressedSensing) : vec -> vec :=
  match CS.mode op with
  | CS.Fast n D mask => fun r => CS.select mask (CS.dct1 (vmul r D))
  | CS.Dense m n _A _ _ => matvec _A
  end.

Definition row_need (op : CS.CompressedSensing) : nat :=
  match CS.mode op with
  | CS.Fast n _ _ => n
  | CS.Dense _ n _ _ _ => n
  end.

(** The fields as [__init__] leaves them: the draws of a fast operator have
    the length [n] of one row, at least 2 for the transform to be defined;
    the matrix of a dense operator is [m x n] with [n] positive. *)
Definition well_formed (op : CS.CompressedSensing) : Prop :=
  match CS.mode op with
  | CS.Fast n D mask => (2 <= n)%nat /\ List.length D = n /\ List.length mask = n
  | CS.Dense m n _A _ _ => (1 <= n)%nat /\ has_shape m n _A
  end.

(** A stand-in for the ramp filter. *)
Definition id_filter (y : tensor) : tensor := y.

(** A 1 x 1 x 2 x 3 image with distinct entries. *)
Definition img123456 : tensor := mkTensor [1; 1; 2; 3]%nat [1; 2; 3; 4; 5; 6].

(** A loss name that one of the five tests accepts. *)
Definition recognised (n : string) : bool :=
  String.eqb n "mc" || String.eqb n "ms" || String.eqb n "sup" ||
  String.prefix "sure" n || String.eqb n "ei" || String.eqb n "rei".

(** Two losses of a batch, with constant values. *)
Definition two_losses : list Training.loss_fn :=
  [Training.mkLoss "mc" (fun _ => 2); Training.mkLoss "sup" (fun _ => 3)].

(** ** Tactics *)

(** Equality of two real vectors of the same explicit length, entry by
    entry. *)
Ltac vec_eq tac :=
  repeat (apply (f_equal2 (@cons R)); [tac|]); reflexivity.

(** * Facts *)

(** ** Real arithmetic and vectors *)

Lemma pow2_half_sq (m : nat) :
  Hadamard.pow2_half m * Hadamard.pow2_half m = 2 ^ m.
Proof.
  unfold Hadamard.pow2_half. rewrite <- Rpower_plus.
  replace (INR m / 2 + INR m / 2) with (INR m) by field.
  apply Rpower_pow. lra.
Qed.

Lemma pow2_half_pos (m : nat) : 0 < Hadamard.pow2_half m.
Proof. unfold Hadamard.pow2_half, Rpower. apply exp_pos. Qed.

Lemma norm_single (a : R) : 0 <= a -> norm [a] = a.
Proof.
  intros Ha. unfold norm, dot, vmul. simpl.
  replace (a * a + 0) with (a * a) by ring.
  apply sqrt_square; exact Ha.
Qed.

Lemma vadd_length (a b : vec) :
  List.length a = List.length b -> List.length (vadd a b) = List.length a.
Proof.
  intros H. unfold vadd. rewrite length_map, length_combine, <- H.
  apply Nat.min_id.
Qed.

Lemma vscale_length (c : R) (a : vec) : List.length (vscale c a) = List.length a.
Proof. unfold vscale. apply length_map. Qed.

Lemma zeros_length (n : nat) : List.length (zeros n) = n.
Proof. unfold zeros. apply repeat_length. Qed.

Lemma dot_nil_r (a : vec) : dot a [] = 0.
Proof. unfold dot, vmul. rewrite combine_nil. reflexivity. Qed.

Lemma dot_cons (x y : R) (a b : vec) : dot (x :: a) (y :: b) = x * y + dot a b.
Proof. reflexivity. Qed.

Lemma dot_zeros_l (n : nat) (v : vec) : dot (zeros n) v = 0.
Proof.
  revert v. induction n as [|n IH]; intros v; [reflexivity|].
  destruct v as [|y v]; [apply dot_nil_r|].
  change (zeros (S n)) with (0 :: zeros n).
  rewrite dot_cons, IH. ring.
Qed.

Lemma dot_vscale_l (c : R) (a v : vec) : dot (vscale c a) v = c * dot a v.
Proof.
  revert v. induction a as [|x a IH]; intros v.
  - unfold dot; simpl. ring.
  - destruct v as [|y v].
    + rewrite !dot_nil_r. ring.
    + change (vscale c (x :: a)) with (c * x :: vscale c a).
      rewrite !dot_cons, IH. ring.
Qed.

Lemma dot_vadd_l (a b v : vec) :
  List.length a = List.length b -> dot (vadd a b) v = dot a v + dot b v.
Proof.
  revert b v. induction a as [|x a IH]; intros b v H.
  - destruct b; [|discriminate H]. unfold dot; simpl. ring.
  - destruct b as [|y b]; [discriminate H|].
    destruct v as [|z v].
    + rewrite !dot_nil_r. ring.
    + change (vadd (x :: a) (y :: b)) with (x + y :: vadd a b).
      rewrite !dot_cons, IH by (simpl in H; lia). ring.
Qed.

Lemma lincomb_length (width : nat) (c : vec) (rows : matrix) :
  Forall (fun r => List.length r = width) rows ->
  List.length (lincomb width c rows) = width.
Proof.
  intros Hrows. revert c. induction Hrows as [|r rows Hr _ IH]; intros c.
  - destruct c; apply zeros_length.
  - destruct c as [|ck c]; [apply zeros_length|].
    simpl. rewrite vadd_length; rewrite vscale_length; [exact Hr|].
    rewrite IH. exact Hr.
Qed.

(** The product with a linear combination of rows is the combination of
    the products. *)
Lemma dot_lincomb (width : nat) (c : vec) (rows : matrix) (v : vec) :
  Forall (fun r => List.length r = width) rows ->
  dot (lincomb width c rows) v = dot c (matvec rows v).
Proof.
  intros Hrows. revert c. induction Hrows as [|r rows Hr Hrows IH]; intros c.
  - destruct c; simpl; rewrite dot_zeros_l; [reflexivity|].
    symmetry; apply dot_nil_r.
  - destruct c as [|ck c]; [apply dot_zeros_l|].
    simpl. rewrite dot_vadd_l.
    + rewrite dot_vscale_l, IH, dot_cons. reflexivity.
    + rewrite vscale_length, lincomb_length by exact Hrows. exact Hr.
Qed.

Lemma matvec_matmul (width : nat) (A B : matrix) (v : vec) :
  Forall (fun r => List.length r = width) B ->
  matvec (matmul width A B) v = matvec A (matvec B v).
Proof.
  intros HB. unfold matvec at 1 2, matmul. rewrite map_map.
  apply map_ext. intros ra. apply dot_lincomb; exact HB.
Qed.

Lemma matvec_length (A : matrix) (v : vec) : List.length (matvec A v) = List.length A.
Proof. unfold matvec. apply length_map. Qed.

(** ** The Hadamard transform *)

Section HadamardFacts.
Import Hadamard.

Lemma zip_app {S T : Type} (a a' : list S) (b b' : list T) :
  List.length a = List.length b ->
  combine (a ++ a') (b ++ b') = combine a b ++ combine a' b'.
Proof.
  revert b. induction a as [|x a IH]; intros [|y b] H; simpl in *; try lia.
  - reflexivity.
  - rewrite IH by lia. reflexivity.
Qed.

Lemma evens_odds_app {T : Type} (j : nat) (a b : list T) :
  List.length a = (2 * j)%nat ->
  evens (a ++ b) = evens a ++ evens b /\ odds (a ++ b) = odds a ++ odds b /\
  List.length (evens a) = j /\ List.length (odds a) = j.
Proof.
  revert a. induction j as [|j IH]; intros a H.
  - destruct a; [|discriminate H]. simpl. auto.
  - destruct a as [|x [|y a]]; try (simpl in H; lia).
    destruct (IH a) as (E & O & LE & LO); [simpl in H; lia|].
    simpl. rewrite E, O, LE, LO. auto.
Qed.

Lemma butterfly_app (j : nat) (a b : matrix) :
  List.length a = (2 * j)%nat ->
  butterfly (a ++ b) = butterfly a ++ butterfly b /\ List.length (butterfly a) = j.
Proof.
  intros H. destruct (evens_odds_app j a b H) as (E & O & LE & LO).
  unfold butterfly, cat_last, rows_add, rows_sub.
  rewrite E, O.
  rewrite !(zip_app (evens a)) by lia.
  rewrite !map_app.
  rewrite zip_app by (rewrite !length_map; reflexivity).
  rewrite map_app. split; [reflexivity|].
  rewrite !length_map, !length_combine, !length_map, !length_combine. lia.
Qed.

Lemma butterflies_app (k j : nat) (a b : matrix) :
  List.length a = (2 ^ k * j)%nat ->
  butterflies k (a ++ b) = butterflies k a ++ butterflies k b.
Proof.
  revert a b. induction k as [|k IH]; intros a b H; [reflexivity|].
  simpl butterflies.
  destruct (butterfly_app (2 ^ k * j) a b) as [E L].
  { rewrite H. rewrite Nat.pow_succ_r'. lia. }
  rewrite E. apply IH. exact L.
Qed.

Lemma butterflies_succ (k : nat) (x : matrix) :
  butterflies (S k) x = butterfly (butterflies k x).
Proof.
  revert x. induction k as [|k IH]; intros x; [reflexivity|].
  change (butterflies (S (S k)) x) with (butterflies (S k) (butterfly x)).
  rewrite IH. reflexivity.
Qed.

Lemma newaxis_app (a b : vec) : newaxis (a ++ b) = newaxis a ++ newaxis b.
Proof. unfold newaxis. apply map_app. Qed.

Lemma sylvester_succ (m : nat) :
  sylvester (S m) =
  map (fun r => r ++ r) (sylvester m) ++ map (fun r => r ++ map Ropp r) (sylvester m).
Proof. reflexivity. Qed.

Lemma sylvester_shape (m : nat) : has_shape (2 ^ m) (2 ^ m) (sylvester m).
Proof.
  induction m as [|m [IHl IHr]].
  - split; [reflexivity|]. repeat constructor.
  - rewrite sylvester_succ, Nat.pow_succ_r'. split.
    + unfold matrix, vec in *. rewrite length_app, !length_map, IHl. lia.
    + apply Forall_app. split; apply Forall_map;
        (eapply Forall_impl; [|exact IHr]); intros r Hr; cbv beta;
        rewrite length_app, ?length_map, Hr; lia.
Qed.

Lemma dot_app (r r' a b : vec) :
  List.length r = List.length a ->
  dot (r ++ r') (a ++ b) = dot r a + dot r' b.
Proof.
  revert a. induction r as [|x r IH]; intros [|y a] H; simpl in *; try lia.
  - change (dot [] []) with 0. ring.
  - rewrite !dot_cons, IH by lia. ring.
Qed.

Lemma dot_opp_l (r b : vec) : dot (map Ropp r) b = - dot r b.
Proof.
  revert b. induction r as [|x r IH]; intros [|y b]; simpl;
    rewrite ?dot_nil_r; try (unfold dot; simpl; ring).
  rewrite !dot_cons, IH. ring.
Qed.

Lemma vadd_map {T : Type} (f g : T -> R) (l : list T) :
  vadd (map f l) (map g l) = map (fun x => f x + g x) l.
Proof. induction l as [|x l IH]; [reflexivity|]. unfold vadd in *. simpl. rewrite IH. reflexivity. Qed.

Lemma vsub_map {T : Type} (f g : T -> R) (l : list T) :
  vsub (map f l) (map g l) = map (fun x => f x - g x) l.
Proof. induction l as [|x l IH]; [reflexivity|]. unfold vsub in *. simpl. rewrite IH. reflexivity. Qed.

(** Sylvester's doubling on the product. *)
Lemma matvec_sylvester_succ (m : nat) (a b : vec) :
  List.length a = (2 ^ m)%nat ->
  matvec (sylvester (S m)) (a ++ b) =
  vadd (matvec (sylvester m) a) (matvec (sylvester m) b) ++
  vsub (matvec (sylvester m) a) (matvec (sylvester m) b).
Proof.
  intros Ha. destruct (sylvester_shape m) as [_ Hrows].
  unfold matvec. rewrite sylvester_succ, map_app, !map_map.
  rewrite vadd_map, vsub_map. f_equal; apply map_ext_in; intros r Hr;
    rewrite Forall_forall in Hrows; specialize (Hrows r Hr);
    rewrite dot_app by lia; rewrite ?dot_opp_l; ring.
Qed.

(** The butterfly passes compute the product with the Hadamard matrix. *)
Lemma butterflies_sylvester (m : nat) (u : vec) :
  List.length u = (2 ^ m)%nat ->
  butterflies m (newaxis u) = [matvec (sylvester m) u].
Proof.
  revert u. induction m as [|m IH]; intros u H.
  - destruct u as [|x [|y u]]; try discriminate H.
    simpl. unfold dot. simpl. do 2 f_equal. ring.
  - rewrite <- (firstn_skipn (2 ^ m) u).
    assert (Ha : List.length (firstn (2 ^ m) u) = (2 ^ m)%nat).
    { rewrite length_firstn, H, Nat.pow_succ_r'. lia. }
    assert (Hb : List.length (skipn (2 ^ m) u) = (2 ^ m)%nat).
    { rewrite length_skipn, H, Nat.pow_succ_r'. lia. }
    set (a := firstn (2 ^ m) u) in *. set (b := skipn (2 ^ m) u) in *.
    rewrite butterflies_succ, newaxis_app.
    rewrite (butterflies_app m 1) by (unfold newaxis; rewrite length_map; lia).
    rewrite (IH a Ha), (IH b Hb).
    rewrite matvec_sylvester_succ by exact Ha.
    reflexivity.
Qed.

Lemma matvec_vadd (A : matrix) (x y : vec) :
  List.length x = List.length y ->
  matvec A (vadd x y) = vadd (matvec A x) (matvec A y).
Proof.
  intros H. unfold matvec. rewrite vadd_map. apply map_ext. intros r.
  revert x y H. induction r as [|c r IH]; intros [|a x] [|b y] H; simpl in *; try lia;
    try (unfold dot; simpl; ring).
  change (vadd (a :: x) (b :: y)) with (a + b :: vadd x y).
  rewrite !dot_cons, IH by lia. ring.
Qed.

Lemma matvec_vsub (A : matrix) (x y : vec) :
  List.length x = List.length y ->
  matvec A (vsub x y) = vsub (matvec A x) (matvec A y).
Proof.
  intros H. unfold matvec. rewrite vsub_map. apply map_ext. intros r.
  revert x y H. induction r as [|c r IH]; intros [|a x] [|b y] H; simpl in *; try lia;
    try (unfold dot; simpl; ring).
  change (vsub (a :: x) (b :: y)) with (a - b :: vsub x y).
  rewrite !dot_cons, IH by lia. ring.
Qed.

Lemma matvec_vdiv (A : matrix) (x : vec) (s : R) :
  matvec A (vdiv x s) = vdiv (matvec A x) s.
Proof.
  unfold matvec, vdiv at 2. rewrite map_map. apply map_ext. intros r.
  revert x. induction r as [|c r IH]; intros [|a x]; simpl;
    try (unfold dot; simpl; unfold Rdiv; ring).
  change (vdiv (a :: x) s) with (a / s :: vdiv x s).
  rewrite !dot_cons, IH. unfold Rdiv. ring.
Qed.

Lemma vsub_length (a b : vec) :
  List.length a = List.length b -> List.length (vsub a b) = List.length a.
Proof.
  intros H. unfold vsub. rewrite length_map, length_combine, <- H.
  apply Nat.min_id.
Qed.

Lemma add_sub_halves (c : R) (a b : vec) :
  List.length a = List.length b ->
  vadd (vadd (vscale c a) (vscale c b)) (vsub (vscale c a) (vscale c b)) = vscale (2 * c) a /\
  vsub (vadd (vscale c a) (vscale c b)) (vsub (vscale c a) (vscale c b)) = vscale (2 * c) b.
Proof.
  revert b. induction a as [|x a IH]; intros [|y b] H; simpl in *; try lia.
  - split; reflexivity.
  - destruct (IH b) as [E1 E2]; [lia|].
    unfold vadd, vsub, vscale in *. simpl. rewrite E1, E2.
    split; f_equal; ring.
Qed.

Lemma vscale_app (c : R) (a b : vec) : vscale c (a ++ b) = vscale c a ++ vscale c b.
Proof. unfold vscale. apply map_app. Qed.

(** The Hadamard matrix of order [2^m] squares to [2^m] times the identity. *)
Lemma sylvester_involution (m : nat) (u : vec) :
  List.length u = (2 ^ m)%nat ->
  matvec (sylvester m) (matvec (sylvester m) u) = vscale (2 ^ m) u.
Proof.
  revert u. induction m as [|m IH]; intros u H.
  - destruct u as [|x [|y u]]; try discriminate H.
    unfold matvec, dot, vscale. simpl. f_equal. ring.
  - rewrite <- (firstn_skipn (2 ^ m) u).
    assert (Ha : List.length (firstn (2 ^ m) u) = (2 ^ m)%nat).
    { rewrite length_firstn, H, Nat.pow_succ_r'. lia. }
    assert (Hb : List.length (skipn (2 ^ m) u) = (2 ^ m)%nat).
    { rewrite length_skipn, H, Nat.pow_succ_r'. lia. }
    set (a := firstn (2 ^ m) u) in *. set (b := skipn (2 ^ m) u) in *.
    destruct (sylvester_shape m) as [Hl _].
    assert (La : List.length (matvec (sylvester m) a) = (2 ^ m)%nat)
      by (rewrite matvec_length; exact Hl).
    assert (Lb : List.length (matvec (sylvester m) b) = (2 ^ m)%nat)
      by (rewrite matvec_length; exact Hl).
    rewrite (matvec_sylvester_succ m a b Ha).
    rewrite matvec_sylvester_succ by (rewrite vadd_length; lia).
    rewrite !matvec_vadd, !matvec_vsub by lia.
    rewrite (IH a Ha), (IH b Hb).
    destruct (add_sub_halves (2 ^ m) a b) as [E1 E2]; [lia|].
    rewrite E1, E2, vscale_app. reflexivity.
Qed.

Lemma int_log2_pow2 (m : nat) : int_log2 (2 ^ m) = Ok m.
Proof.
  unfold int_log2. pose proof (Nat.pow_nonzero 2 m) as Hnz.
  destruct (2 ^ m)%nat eqn:E; [lia|].
  rewrite <- E, Nat.log2_pow2 by lia. reflexivity.
Qed.

(** On a power of two the transform is the product with the Hadamard
    matrix, divided by [2^(m/2)] when [normalize] is set. *)
Lemma hadamard_pow2 (m : nat) (u : matrix) (normalize : bool) :
  Forall (fun row => List.length row = (2 ^ m)%nat) u ->
  hadamard (2 ^ m) u normalize =
  Ok (map (fun row => if normalize
                      then vdiv (matvec (sylvester m) row) (pow2_half m)
                      else matvec (sylvester m) row) u).
Proof.
  intros Hu. unfold hadamard. rewrite int_log2_pow2. cbn [bind].
  rewrite Nat.shiftl_1_l, Nat.eqb_refl. cbn [negb]. f_equal.
  assert (E : map (fun row => squeeze_row (butterflies m (newaxis row))) u
              = map (matvec (sylvester m)) u).
  { apply map_ext_in. intros row Hrow. rewrite Forall_forall in Hu.
    rewrite butterflies_sylvester by (apply Hu; exact Hrow).
    unfold squeeze_row. simpl. apply app_nil_r. }
  rewrite E. destruct normalize; [|reflexivity]. apply map_map.
Qed.

Lemma vdiv_length (a : vec) (s : R) : List.length (vdiv a s) = List.length a.
Proof. unfold vdiv. apply length_map. Qed.

Lemma hadamard_twice_pow2 (m : nat) (u : matrix) :
  Forall (fun row => List.length row = (2 ^ m)%nat) u ->
  hadamard_twice (2 ^ m) u = Ok u.
Proof.
  intros Hu. unfold hadamard_twice. rewrite hadamard_pow2 by exact Hu. cbn [bind].
  destruct (sylvester_shape m) as [Hl _].
  rewrite hadamard_pow2.
  2:{ apply Forall_map. eapply Forall_impl; [|exact Hu]. intros row _. cbv beta.
      rewrite vdiv_length, matvec_length. exact Hl. }
  f_equal. rewrite map_map. rewrite <- (map_id u) at 2.
  apply map_ext_in. intros row Hrow. rewrite Forall_forall in Hu.
  rewrite matvec_vdiv, sylvester_involution by (apply Hu; exact Hrow).
  pose proof (pow2_half_sq m) as Hs. pose proof (pow2_half_pos m) as Hp.
  unfold vdiv, vscale. rewrite !map_map. rewrite <- (map_id row) at 2.
  apply map_ext. intros x. rewrite <- Hs. field. lra.
Qed.

(** C7: for n in {2, 4, 8, 16} and every batch of vectors of length n, the
    normalized transform is the product with the Hadamard matrix divided by
    2^(m/2), m = log2 n, and applying it twice gives the input back. *)
Theorem hadamard_self_inverse (n : nat) (u : matrix) :
  In n [2; 4; 8; 16]%nat ->
  Forall (fun row => List.length row = n) u ->
  exists m : nat,
    n = (2 ^ m)%nat /\
    hadamard n u true =
      Ok (map (fun row => vdiv (matvec (sylvester m) row) (Rpower 2 (INR m / 2))) u) /\
    hadamard_twice n u = Ok u.
Proof.
  intros Hn Hu.
  assert (Hm : exists m : nat, n = (2 ^ m)%nat).
  { simpl in Hn. destruct Hn as [E|[E|[E|[E|[]]]]]; subst n;
      [exists 1%nat|exists 2%nat|exists 3%nat|exists 4%nat]; reflexivity. }
  destruct Hm as [m ->]. exists m. split; [reflexivity|]. split.
  - rewrite hadamard_pow2 by exact Hu. reflexivity.
  - apply hadamard_twice_pow2. exact Hu.
Qed.

Lemma hadamard_self_inverse_witness :
  In 8%nat [2; 4; 8; 16]%nat /\
  exists m : nat,
    8%nat = (2 ^ m)%nat /\
    hadamard 8 [[1; 2; 3; 4; 5; 6; 7; 8]] true =
      Ok (map (fun row => vdiv (matvec (sylvester m) row) (Rpower 2 (INR m / 2)))
              [[1; 2; 3; 4; 5; 6; 7; 8]]) /\
    hadamard_twice 8 [[1; 2; 3; 4; 5; 6; 7; 8]] = Ok [[1; 2; 3; 4; 5; 6; 7; 8]].
Proof.
  split; [simpl; auto|].
  apply (hadamard_self_inverse 8 [[1; 2; 3; 4; 5; 6; 7; 8]]).
  - simpl. auto.
  - repeat constructor.
Defined.

(** C8: when the length n of the last dimension is not a power of two the
    transform returns no result: the assertion fails (for n = 0 the
    conversion of log2 0 fails before it). *)
Theorem hadamard_rejects_non_power_of_two (n : nat) (u : matrix) (normalize : bool) :
  (forall m : nat, n <> (2 ^ m)%nat) ->
  hadamard n u normalize =
  Raise (if (n =? 0)%nat then OverflowError
         else AssertionError "n must be a power of 2").
Proof.
  intros Hn. unfold hadamard, int_log2. destruct n as [|n]; [reflexivity|].
  cbn [bind]. rewrite Nat.shiftl_1_l.
  change (S n =? 0)%nat with false. cbv iota.
  destruct (Nat.eqb_spec (S n) (2 ^ Nat.log2 (S n))) as [E|_]; [|reflexivity].
  exfalso. exact (Hn _ E).
Qed.

Lemma hadamard_rejects_non_power_of_two_witness :
  (forall m : nat, 3%nat <> (2 ^ m)%nat) /\
  hadamard 3 [[1; 2; 3]] true = Raise (AssertionError "n must be a power of 2").
Proof.
  assert (H : forall m : nat, 3%nat <> (2 ^ m)%nat).
  { intros m E. destruct m as [|[|[|m]]]; simpl in E; lia. }
  split; [exact H|].
  apply (hadamard_rejects_non_power_of_two 3 [[1; 2; 3]] true H).
Defined.

End HadamardFacts.

(** ** The compressed-sensing operator *)

Section DenseFacts.
Import CS.

Lemma chunks_concat (len count : nat) (rows : matrix) :
  List.length rows = count ->
  Forall (fun r => List.length r = len) rows ->
  chunks len count (concat rows) = rows.
Proof.
  intros <-. induction 1 as [|r rows Hr _ IH]; [reflexivity|].
  simpl. rewrite firstn_app, skipn_app, Hr, Nat.sub_diag, firstn_O, skipn_O, app_nil_r.
  rewrite firstn_all2, skipn_all2 by lia. simpl. rewrite IH. reflexivity.
Qed.

Lemma chunks_shape (len count : nat) (d : vec) :
  List.length d = (count * len)%nat ->
  has_shape count len (chunks len count d).
Proof.
  revert d. induction count as [|c IH]; intros d H.
  - split; [reflexivity|constructor].
  - destruct (IH (skipn len d)) as [L F].
    { rewrite length_skipn, H. simpl. lia. }
    split; simpl; [rewrite L; reflexivity|].
    constructor; [|exact F]. rewrite length_firstn, H. simpl. lia.
Qed.

Lemma concat_uniform_length (len : nat) (rows : matrix) :
  Forall (fun r => List.length r = len) rows ->
  List.length (concat rows) = (List.length rows * len)%nat.
Proof.
  induction 1 as [|r rows Hr _ IH]; [reflexivity|].
  simpl. rewrite length_app, Hr, IH. reflexivity.
Qed.

Lemma on_rows_ok (need : nat) (f : vec -> vec) (rows : matrix) :
  Forall (fun r => List.length r = need) rows ->
  on_rows need f rows = Ok (map f rows).
Proof.
  unfold on_rows. induction 1 as [|r rows Hr _ IH]; [reflexivity|].
  simpl. rewrite Hr, Nat.eqb_refl. cbn [bind]. rewrite IH. reflexivity.
Qed.

Lemma reshape_rows_ok (rows len : nat) (t : tensor) :
  rows <> 0%nat -> List.length (data t) = (rows * len)%nat ->
  reshape_rows rows t = Ok (chunks len rows (data t)).
Proof.
  intros Hr Hl. unfold reshape_rows.
  destruct (Nat.eqb_spec rows 0) as [E|_]; [contradiction|].
  rewrite Hl, (Nat.mul_comm rows len), Nat.Div0.mod_mul, Nat.eqb_refl. cbn [negb orb].
  rewrite Nat.div_mul by exact Hr. reflexivity.
Qed.

Lemma map_matvec_shape (M : matrix) (k : nat) (rows : matrix) :
  List.length M = k ->
  Forall (fun r => List.length r = k) (map (matvec M) rows).
Proof.
  intros HM. apply Forall_map. apply Forall_forall. intros r _.
  rewrite matvec_length. exact HM.
Qed.

(** The dense forward map, row by row. *)
Lemma A_dense_rows (op : CompressedSensing) (m n : nat) (_A Ad At : matrix)
      (x : tensor) (N C : nat) (rest : list nat) :
  mode op = Dense m n _A Ad At ->
  List.length _A = m ->
  shape x = N :: C :: rest ->
  let R := (if channelwise op then N * C else N)%nat in
  R <> 0%nat ->
  List.length (data x) = (R * n)%nat ->
  A op x = Ok (mkTensor (if channelwise op then [N; C; m] else [N; m])
                        (concat (map (matvec _A) (chunks n R (data x))))).
Proof.
  intros Hmode HA Hshape R HR Hlen. unfold A. rewrite Hshape.
  fold R. rewrite (reshape_rows_ok R n) by assumption. cbn [bind].
  rewrite Hmode. destruct (chunks_shape n R (data x) Hlen) as [Lc Fc].
  rewrite on_rows_ok by exact Fc. cbn [bind].
  assert (Hrl : row_len (map (matvec _A) (chunks n R (data x))) = m).
  { destruct (chunks n R (data x)) as [|r rows] eqn:E.
    - simpl in Lc. lia.
    - simpl. rewrite matvec_length. exact HA. }
  rewrite Hrl. reflexivity.
Qed.

(** The stored pseudo-inverse, row by row, on a tensor of measurements. *)
Lemma A_dagger_dense_rows (op : CompressedSensing) (m n : nat) (_A Ad At : matrix)
      (rows : matrix) (N C H W : nat) :
  mode op = Dense m n _A Ad At ->
  img_shape op = (C, H, W) ->
  List.length Ad = n ->
  let R := (if channelwise op then N * C else N)%nat in
  R <> 0%nat ->
  (R * n = N * C * H * W)%nat ->
  List.length rows = R ->
  Forall (fun r => List.length r = m) rows ->
  A_dagger op (mkTensor (if channelwise op then [N; C; m] else [N; m]) (concat rows)) =
  Ok (mkTensor [N; C; H; W] (concat (map (matvec Ad) rows))).
Proof.
  intros Hmode Himg HAd R HR Hn Hl Hrows. unfold A_dagger. rewrite Hmode, Himg.
  assert (Hshape : exists rest, (if channelwise op then [N; C; m] else [N; m]) = N :: rest)
    by (destruct (channelwise op); eexists; reflexivity).
  destruct Hshape as [rest Hshape]. cbn [shape]. rewrite Hshape.
  assert (Hr : (if channelwise op
                then reshape_rows (N * C)
                       (mkTensor (N :: rest) (concat rows))
                else rows_2d (mkTensor (N :: rest) (concat rows))) = Ok rows).
  { subst R. destruct (channelwise op).
    - rewrite (reshape_rows_ok _ m); cbn [data].
      + rewrite chunks_concat by assumption. reflexivity.
      + exact HR.
      + rewrite <- Hl. apply concat_uniform_length. exact Hrows.
    - injection Hshape as <-. unfold rows_2d. cbn [shape data].
      rewrite chunks_concat by assumption. reflexivity. }
  rewrite Hr. cbn [bind]. rewrite on_rows_ok by exact Hrows. cbn [bind].
  rewrite (concat_uniform_length n) by (apply map_matvec_shape; exact HAd).
  rewrite length_map, Hl, Hn, Nat.eqb_refl. reflexivity.
Qed.

(** On a batch with at least one row the three maps succeed and
    [A(A_dagger(A(x)))] is [A(x)]. *)
Lemma dense_pinv_on_batch
        (m C H W N : nat) (cw : bool) (_A Ad : matrix) (x : tensor) :
  moore_penrose m (if cw then H * W else C * H * W)%nat _A Ad ->
  shape x = [N; C; H; W] ->
  List.length (data x) = (N * C * H * W)%nat ->
  (0 < N)%nat ->
  (cw = true -> 0 < C)%nat ->
  exists y : tensor,
    A (init_dense m (C, H, W) cw _A Ad) x = Ok y /\
    (x' <- A_dagger (init_dense m (C, H, W) cw _A Ad) y ;;
     A (init_dense m (C, H, W) cw _A Ad) x') = Ok y.
Proof.
  intros (HA & HAd & Hpinv & _) Hshape Hlen HN HC.
  set (n := (if cw then H * W else C * H * W)%nat) in *.
  set (op := init_dense m (C, H, W) cw _A Ad).
  assert (Hmode : mode op = Dense m n _A Ad (transpose n _A)) by reflexivity.
  assert (Hcw : channelwise op = cw) by reflexivity.
  set (R := (if cw then N * C else N)%nat).
  assert (HR : R <> 0%nat).
  { subst R. destruct cw; [specialize (HC eq_refl)|]; nia. }
  assert (HRn : (R * n = N * C * H * W)%nat) by (subst R n; destruct cw; lia).
  destruct HA as [HAl HAr]. destruct HAd as [HAdl HAdr].
  set (rows := chunks n R (data x)).
  assert (Hrows : has_shape R n rows) by (apply chunks_shape; lia).
  destruct Hrows as [Hrl Hrf].
  assert (HAx : A op x = Ok (mkTensor (if channelwise op then [N; C; m] else [N; m])
                                      (concat (map (matvec _A) rows)))).
  { apply (A_dense_rows op m n _A Ad (transpose n _A) x N C [H; W]); rewrite ?Hcw;
      try assumption; try reflexivity. fold R. lia. }
  eexists. split; [exact HAx|].
  rewrite (A_dagger_dense_rows op m n _A Ad (transpose n _A) _ N C H W);
    rewrite ?Hcw; try assumption; try reflexivity.
  2:{ rewrite length_map. exact Hrl. }
  2:{ apply map_matvec_shape. exact HAl. }
  cbn [bind].
  assert (Hx' : List.length (concat (map (matvec Ad) (map (matvec _A) rows))) = (R * n)%nat).
  { rewrite (concat_uniform_length n) by (apply map_matvec_shape; exact HAdl).
    rewrite !length_map, Hrl. reflexivity. }
  rewrite (A_dense_rows op m n _A Ad (transpose n _A) _ N C [H; W]);
    rewrite ?Hcw; try assumption; try reflexivity.
  cbn [data]. fold R.
  rewrite chunks_concat;
    [|rewrite !length_map; exact Hrl|apply map_matvec_shape; exact HAdl].
  do 3 f_equal. rewrite !map_map. apply map_ext_in. intros r Hr.
  rewrite <- (matvec_matmul m _A Ad) by exact HAdr.
  rewrite <- (matvec_matmul n (matmul m _A Ad) _A) by exact HAr.
  rewrite Hpinv. reflexivity.
Qed.

(** C5: for the dense operator whose stored [_A_dagger] is the
    Moore-Penrose pseudo-inverse of the stored [_A], and every batch [x] of
    the image shape, [A(A_dagger(A(x)))] is [A(x)]; the forward map returns
    a measurement as soon as the batch is not empty. *)
Theorem dense_pinv_idempotent_on_range
        (m C H W N : nat) (cw : bool) (_A Ad : matrix) (x : tensor) :
  moore_penrose m (if cw then H * W else C * H * W)%nat _A Ad ->
  shape x = [N; C; H; W] ->
  List.length (data x) = (N * C * H * W)%nat ->
  (y <- A (init_dense m (C, H, W) cw _A Ad) x ;;
   x' <- A_dagger (init_dense m (C, H, W) cw _A Ad) y ;;
   A (init_dense m (C, H, W) cw _A Ad) x')
  = A (init_dense m (C, H, W) cw _A Ad) x /\
  ((0 < N)%nat -> (cw = true -> 0 < C)%nat ->
   exists y : tensor, A (init_dense m (C, H, W) cw _A Ad) x = Ok y).
Proof.
  intros Hmp Hshape Hlen.
  destruct (Nat.eq_dec (if cw then N * C else N)%nat 0) as [HR|HR].
  - assert (E : A (init_dense m (C, H, W) cw _A Ad) x = Raise RuntimeError).
    { unfold A. rewrite Hshape. cbn [channelwise init_dense].
      unfold reshape_rows. rewrite HR. reflexivity. }
    rewrite E. split; [reflexivity|].
    intros HN HC. exfalso. destruct cw; [specialize (HC eq_refl)|]; nia.
  - assert (HN : (0 < N)%nat) by (destruct cw; nia).
    assert (HC : cw = true -> (0 < C)%nat) by (intros ->; nia).
    destruct (dense_pinv_on_batch m C H W N cw _A Ad x Hmp Hshape Hlen HN HC)
      as (y & Hy & Hyy).
    split; [|intros _ _; exists y; exact Hy].
    rewrite Hy. cbn [bind]. exact Hyy.
Qed.

Lemma row11_moore_penrose : moore_penrose 1 2 row11 row11_pinv.
Proof.
  unfold moore_penrose, has_shape, row11, row11_pinv.
  repeat split; try (repeat constructor);
    cbv -[Rplus Rmult Rdiv Rminus Ropp Rinv IZR];
    repeat (apply (f_equal2 (@cons vec)); [vec_eq ltac:(field_simplify; lra)|]);
    reflexivity.
Qed.

Lemma dense_pinv_idempotent_on_range_witness :
  moore_penrose 1 2 row11 row11_pinv /\
  (y <- A (init_dense 1 (1, 1, 2)%nat false row11 row11_pinv)
          (mkTensor [1; 1; 1; 2]%nat [3; 5]) ;;
   x' <- A_dagger (init_dense 1 (1, 1, 2)%nat false row11 row11_pinv) y ;;
   A (init_dense 1 (1, 1, 2)%nat false row11 row11_pinv) x')
  = A (init_dense 1 (1, 1, 2)%nat false row11 row11_pinv)
      (mkTensor [1; 1; 1; 2]%nat [3; 5]).
Proof.
  split; [exact row11_moore_penrose|].
  apply (dense_pinv_idempotent_on_range 1 1 1 2 1 false row11 row11_pinv
           (mkTensor [1; 1; 1; 2]%nat [3; 5]) row11_moore_penrose eq_refl eq_refl).
Defined.

End DenseFacts.

Section DenseAdjoint.
Import CS.

Lemma map_nth_seq (r : vec) : map (fun j => nth j r 0) (seq 0 (List.length r)) = r.
Proof.
  induction r as [|x r IH]; [reflexivity|].
  cbn [List.length seq map nth]. rewrite <- seq_shift, map_map. cbn [nth].
  rewrite IH. reflexivity.
Qed.

Lemma map_zero_seq (s n : nat) : map (fun _ : nat => 0) (seq s n) = zeros n.
Proof.
  revert s. induction n as [|n IH]; intros s; [reflexivity|].
  cbn [seq map]. rewrite IH. reflexivity.
Qed.

(** The product with the transpose is a combination of the rows. *)
Lemma matvec_transpose (n : nat) (M : matrix) (v : vec) :
  Forall (fun r => List.length r = n) M ->
  matvec (transpose n M) v = lincomb n v M.
Proof.
  intros HM. revert v. induction HM as [|r M Hr HM IH]; intros v.
  - unfold matvec, transpose. rewrite map_map. cbn [column map].
    destruct v; apply map_zero_seq.
  - destruct v as [|c v].
    + unfold matvec, transpose. rewrite map_map.
      rewrite (map_ext _ (fun _ => 0)) by (intros j; apply dot_nil_r).
      apply map_zero_seq.
    + cbn [lincomb]. rewrite <- IH.
      unfold matvec, transpose. rewrite !map_map.
      assert (E : vscale c r = map (fun j => c * nth j r 0) (seq 0 n)).
      { rewrite <- Hr, <- (map_map (fun j => nth j r 0) (fun x => c * x)), map_nth_seq.
        reflexivity. }
      rewrite E, vadd_map.
      apply map_ext. intros j. unfold column. cbn [map]. rewrite dot_cons. ring.
Qed.

Lemma dense_adjoint_row (n : nat) (M : matrix) (v u : vec) :
  Forall (fun r => List.length r = n) M ->
  dot v (matvec M u) = dot (matvec (transpose n M) v) u.
Proof.
  intros HM. rewrite matvec_transpose by exact HM.
  symmetry. apply dot_lincomb. exact HM.
Qed.

Lemma transpose_length (n : nat) (M : matrix) : List.length (transpose n M) = n.
Proof. unfold transpose. rewrite length_map, length_seq. reflexivity. Qed.

Lemma dense_adjoint_rows (m n : nat) (M : matrix) (vs us : matrix) :
  has_shape m n M ->
  Forall (fun r => List.length r = m) vs ->
  Forall (fun r => List.length r = n) us ->
  List.length vs = List.length us ->
  dot (concat vs) (concat (map (matvec M) us)) =
  dot (concat (map (matvec (transpose n M)) vs)) (concat us).
Proof.
  intros [HMl HMr] Hvs. revert us.
  induction Hvs as [|v vs Hv _ IH]; intros us Hus Hl.
  - destruct us; [reflexivity|discriminate Hl].
  - destruct us as [|u us]; [discriminate Hl|].
    inversion Hus as [|? ? Hu Hus']; subst.
    cbn [map concat].
    rewrite !dot_app by (rewrite ?matvec_length, ?transpose_length; lia).
    rewrite IH by (try assumption; simpl in Hl; lia).
    rewrite (dense_adjoint_row (List.length u) M v u HMr). reflexivity.
Qed.

Lemma concat_chunks (len count : nat) (d : vec) :
  List.length d = (count * len)%nat -> concat (chunks len count d) = d.
Proof.
  revert d. induction count as [|c IH]; intros d H.
  - destruct d; [reflexivity|discriminate H].
  - cbn [chunks concat]. rewrite IH by (rewrite length_skipn, H; simpl; lia).
    apply firstn_skipn.
Qed.

(** The stored transpose, row by row, on a tensor of measurements. *)
Lemma A_adjoint_dense_rows (op : CompressedSensing) (m n : nat) (_A Ad At : matrix)
      (rows : matrix) (N C H W : nat) :
  mode op = Dense m n _A Ad At ->
  img_shape op = (C, H, W) ->
  List.length At = n ->
  let R := (if channelwise op then N * C else N)%nat in
  R <> 0%nat ->
  (R * n = N * C * H * W)%nat ->
  List.length rows = R ->
  Forall (fun r => List.length r = m) rows ->
  A_adjoint op (mkTensor (if channelwise op then [N; C; m] else [N; m]) (concat rows)) =
  Ok (mkTensor [N; C; H; W] (concat (map (matvec At) rows))).
Proof.
  intros Hmode Himg HAt R HR Hn Hl Hrows. unfold A_adjoint. rewrite Hmode, Himg.
  assert (Hshape : exists rest, (if channelwise op then [N; C; m] else [N; m]) = N :: rest)
    by (destruct (channelwise op); eexists; reflexivity).
  destruct Hshape as [rest Hshape]. cbn [shape]. rewrite Hshape.
  assert (Hr : (if channelwise op
                then reshape_rows (N * C)
                       (mkTensor (N :: rest) (concat rows))
                else rows_2d (mkTensor (N :: rest) (concat rows))) = Ok rows).
  { subst R. destruct (channelwise op).
    - rewrite (reshape_rows_ok _ m); cbn [data].
      + rewrite chunks_concat by assumption. reflexivity.
      + exact HR.
      + rewrite <- Hl. apply concat_uniform_length. exact Hrows.
    - injection Hshape as <-. unfold rows_2d. cbn [shape data].
      rewrite chunks_concat by assumption. reflexivity. }
  rewrite Hr. cbn [bind]. rewrite on_rows_ok by exact Hrows. cbn [bind].
  rewrite (concat_uniform_length n) by (apply map_matvec_shape; exact HAt).
  rewrite length_map, Hl, Hn, Nat.eqb_refl. reflexivity.
Qed.

(** The dense operator satisfies the adjoint identity exactly: for every
    batch [u] of the image shape and every draw [v] of the shape of
    [A(u)], [adjointness_test] returns 0. *)
Theorem dense_adjointness
        (m C H W N : nat) (cw : bool) (_A Ad : matrix) (u : tensor) (v : vec) :
  has_shape m (if cw then H * W else C * H * W)%nat _A ->
  shape u = [N; C; H; W] ->
  List.length (data u) = (N * C * H * W)%nat ->
  (0 < N)%nat ->
  (cw = true -> 0 < C)%nat ->
  List.length v = ((if cw then N * C else N) * m)%nat ->
  adjointness_test (init_dense m (C, H, W) cw _A Ad) v u = Ok 0.
Proof.
  intros HA Hshape Hlen HN HC Hv.
  set (n := (if cw then H * W else C * H * W)%nat) in *.
  set (op := init_dense m (C, H, W) cw _A Ad).
  assert (Hmode : mode op = Dense m n _A Ad (transpose n _A)) by reflexivity.
  assert (Hcw : channelwise op = cw) by reflexivity.
  set (R := (if cw then N * C else N)%nat) in *.
  assert (HR : R <> 0%nat).
  { subst R. destruct cw; [specialize (HC eq_refl)|]; nia. }
  assert (HRn : (R * n = N * C * H * W)%nat) by (subst R n; destruct cw; lia).
  pose proof HA as [HAl HAr].
  set (us := chunks n R (data u)).
  destruct (chunks_shape n R (data u)) as [Hul Huf]; [lia|]. fold us in Hul, Huf.
  set (vs := chunks m R v).
  destruct (chunks_shape m R v Hv) as [Hvl Hvf]. fold vs in Hvl, Hvf.
  assert (Eu : data u = concat us) by (symmetry; apply concat_chunks; lia).
  assert (Ev : v = concat vs) by (symmetry; apply concat_chunks; exact Hv).
  unfold adjointness_test.
  rewrite (A_dense_rows op m n _A Ad (transpose n _A) u N C [H; W]);
    rewrite ?Hcw; try assumption; try reflexivity; [|fold R; lia].
  cbn [bind shape data]. fold R. fold us. rewrite Ev.
  rewrite <- Hcw.
  rewrite (A_adjoint_dense_rows op m n _A Ad (transpose n _A) vs N C H W);
    rewrite ?Hcw; try assumption; try reflexivity; [|apply transpose_length].
  cbn [bind data]. rewrite Eu.
  rewrite (dense_adjoint_rows m n _A vs us HA Hvf Huf) by lia.
  f_equal. ring.
Qed.

End DenseAdjoint.

Section PowerMethodFacts.
Import CS.

Lemma power_iterations_succ op tol verbose todo it x zold z :
  power_iterations op tol verbose (S todo) it x zold z =
  (y <- A op x ;;
   y <- A_adjoint op y ;;
   let z' := dot (data x) (data y) / (norm (data x)) ^ 2 in
   let rel_var := norm (map (fun o => z' - o) zold) in
   if (if Rlt_dec rel_var tol then true else false) && verbose
   then return_z (Some z') (S it) [it]
   else power_iterations op tol verbose todo (S it)
             (mkTensor (shape y) (vdiv (data y) (norm (data y)))) [z'] (Some z')).
Proof. reflexivity. Qed.

(** With [verbose=False] the tolerance test never leaves the loop: a call
    that returns has run all [todo] remaining passes and printed nothing. *)
Lemma quiet_run_reaches_cap op tol todo it x zold z r :
  power_iterations op tol false todo it x zold z = Ok r ->
  iterations r = (it + todo)%nat /\ printed r = [].
Proof.
  revert it x zold z. induction todo as [|todo IH]; intros it x zold z H.
  - simpl in H. destruct z; [|discriminate H]. injection H as <-. simpl. split; [lia|reflexivity].
  - rewrite power_iterations_succ in H.
    destruct (A op x) as [y| |]; try discriminate H. cbn [bind] in H.
    destruct (A_adjoint op y) as [y'| |]; try discriminate H. cbn [bind] in H.
    cbv zeta in H. rewrite andb_false_r in H.
    apply IH in H. destruct H as [H1 H2]. split; [lia|exact H2].
Qed.

(** One pass on the unit operator from the unit vector. *)
Lemma unit_step tol verbose todo it zold z :
  power_iterations unit_op tol verbose (S todo) it (mkTensor unit_shape [1]) zold z =
  if (if Rlt_dec (norm (map (fun o => 1 - o) zold)) tol then true else false) && verbose
  then return_z (Some 1) (S it) [it]
  else power_iterations unit_op tol verbose todo (S it) (mkTensor unit_shape [1]) [1] (Some 1).
Proof.
  rewrite power_iterations_succ.
  cbn -[norm Rlt_dec power_iterations].
  replace (1 * (1 * 1 + 0) + 0) with 1 by ring.
  rewrite (norm_single 1) by lra.
  replace ((1 * 1 + 0) / (1 * (1 * 1))) with 1 by field.
  replace (1 / 1) with 1 by field.
  reflexivity.
Qed.

Lemma unit_start max_iter tol verbose :
  power_method unit_op [1] (mkTensor unit_shape [0]) max_iter tol verbose =
  power_iterations unit_op tol verbose (Z.to_nat max_iter) 0 (mkTensor unit_shape [1]) [0] None.
Proof.
  unfold power_method. cbn [shape data vdiv map List.length zeros repeat].
  rewrite (norm_single 1) by lra. replace (1 / 1) with 1 by field.
  reflexivity.
Qed.

(** C3, on the code: on the 1 x 1 unit operator the eigenvalue estimate
    stops changing at iteration 1.  With [verbose=True] the loop leaves
    there, after 2 passes; with [verbose=False] the same call runs all 5
    passes of the cap, so the tolerance is no exit condition of its own.
    With a cap of 0 the call raises instead of returning an estimate. *)
Theorem power_method_tolerance_needs_verbose :
  power_method unit_op [1] (mkTensor unit_shape [0]) 5 (1 / 1000) true
    = Ok (mkReport 1 2 [1%nat]) /\
  power_method unit_op [1] (mkTensor unit_shape [0]) 5 (1 / 1000) false
    = Ok (mkReport 1 5 []) /\
  power_method unit_op [1] (mkTensor unit_shape [0]) 0 (1 / 1000) true
    = Raise (UnboundLocalError "z").
Proof.
  split; [|split].
  - rewrite unit_start. change (Z.to_nat 5) with 5%nat.
    rewrite unit_step. cbn [map].
    replace (1 - 0) with 1 by ring. rewrite (norm_single 1) by lra.
    destruct (Rlt_dec 1 (1 / 1000)) as [H|_]; [lra|]. cbn [andb].
    rewrite unit_step. cbn [map]. replace (1 - 1) with 0 by ring.
    rewrite (norm_single 0) by lra.
    destruct (Rlt_dec 0 (1 / 1000)) as [_|H]; [|lra]. reflexivity.
  - rewrite unit_start. change (Z.to_nat 5) with 5%nat.
    do 5 (rewrite unit_step; rewrite andb_false_r).
    reflexivity.
  - rewrite unit_start. reflexivity.
Qed.

End PowerMethodFacts.

Section FastFacts.
Import CS.

(** [dct1] on three samples: the matrix is [[1, 2, 1], [1, 0, -1],
    [1, -2, 1]] / 2, which is not symmetric. *)
Lemma dct1_3 (a b c : R) :
  dct1 [a; b; c] = [(a + 2 * b + c) / 2; (a - c) / 2; (a - 2 * b + c) / 2].
Proof.
  unfold dct1, rfft_re, flip_inner. cbn -[cos PI sqrt INR].
  replace (sqrt (2 * (INR 3 - 1))) with 2.
  2:{ replace (2 * (INR 3 - 1)) with (2 * 2) by (simpl; lra).
      symmetry; apply sqrt_square; lra. }
  replace (2 * PI * INR 0 * INR 0 / INR 4) with 0 by (simpl; field).
  replace (2 * PI * INR 1 * INR 0 / INR 4) with 0 by (simpl; field).
  replace (2 * PI * INR 2 * INR 0 / INR 4) with 0 by (simpl; field).
  replace (2 * PI * INR 3 * INR 0 / INR 4) with 0 by (simpl; field).
  replace (2 * PI * INR 0 * INR 1 / INR 4) with 0 by (simpl; field).
  replace (2 * PI * INR 0 * INR 2 / INR 4) with 0 by (simpl; field).
  replace (2 * PI * INR 1 * INR 1 / INR 4) with (PI / 2) by (simpl; field).
  replace (2 * PI * INR 2 * INR 1 / INR 4) with PI by (simpl; field).
  replace (2 * PI * INR 1 * INR 2 / INR 4) with PI by (simpl; field).
  replace (2 * PI * INR 3 * INR 1 / INR 4) with (3 * (PI / 2)) by (simpl; field).
  replace (2 * PI * INR 2 * INR 2 / INR 4) with (2 * PI) by (simpl; field).
  replace (2 * PI * INR 3 * INR 2 / INR 4) with (PI + 2 * PI) by (simpl; field).
  rewrite cos_0, cos_PI2, cos_PI, cos_3PI2, cos_2PI.
  replace (cos (PI + 2 * PI)) with (-1).
  2:{ rewrite <- cos_PI. rewrite <- (cos_period PI 1). simpl INR.
      f_equal. ring. }
  vec_eq lra.
Qed.

(** C4, on the code: for the fast operator on 1 x 1 x 3 images with no
    sign flip and the full mask, u = (0, 1, 0) and v = (1, 0, 0) give
    <v, A u> - <A_adjoint v, u> = 1/2, not 0. *)
Theorem fast_adjointness_gap :
  A fast3 (mkTensor [1; 1; 1; 3]%nat [0; 1; 0]) = Ok (mkTensor [1; 3]%nat [1; 0; -1]) /\
  A_adjoint fast3 (mkTensor [1; 3]%nat [1; 0; 0])
    = Ok (mkTensor [1; 1; 1; 3]%nat [1 / 2; 1 / 2; 1 / 2]) /\
  adjointness_test fast3 [1; 0; 0] (mkTensor [1; 1; 1; 3]%nat [0; 1; 0]) = Ok (1 / 2).
Proof.
  assert (HA : A fast3 (mkTensor [1; 1; 1; 3]%nat [0; 1; 0])
               = Ok (mkTensor [1; 3]%nat [1; 0; -1])).
  { unfold A, fast3, init_fast. cbn -[dct1]. rewrite dct1_3. cbn.
    do 2 f_equal. vec_eq lra. }
  assert (HAt : A_adjoint fast3 (mkTensor [1; 3]%nat [1; 0; 0])
                = Ok (mkTensor [1; 1; 1; 3]%nat [1 / 2; 1 / 2; 1 / 2])).
  { unfold A_adjoint, fast3, init_fast. cbn -[dct1]. rewrite dct1_3. cbn.
    do 2 f_equal. vec_eq lra. }
  split; [exact HA|]. split; [exact HAt|].
  unfold adjointness_test. rewrite HA. cbn [bind shape]. rewrite HAt. cbn [bind data].
  unfold dot. simpl. f_equal. lra.
Qed.

End FastFacts.

(** ** The tomography operator *)

Section TomographyFacts.
Import Tomography.


Lemma nth_map_seq (f : nat -> R) (n i : nat) (d : R) :
  (i < n)%nat -> nth i (map f (seq 0 n)) d = f i.
Proof.
  intros Hi. rewrite (nth_indep _ d (f 0%nat)) by (rewrite length_map, length_seq; exact Hi).
  rewrite map_nth, seq_nth by exact Hi. reflexivity.
Qed.



Section Collaborators.

Variable radon : vec -> tensor -> outcome tensor.
Variable iradon : vec -> bool -> tensor -> outcome tensor.
Variable adjoint_function :
  (tensor -> outcome tensor) -> list nat -> tensor -> outcome tensor.

(** C9: an operator built with fan_beam=True and img_width=None refuses
    [A_adjoint] with the assertion that names the unknown image size; once
    [A] has been called on an input of width [w], or when the width [w] was
    given to the constructor, the assertion passes and the adjoint is built
    for images of width [w]. *)
Theorem fan_beam_adjoint_needs_width (angles : angles_arg) (s : state) :
  init angles None true = Ok s ->
  (forall y : tensor,
      A_adjoint radon iradon adjoint_function s y
      = Raise (AssertionError image_size_unknown)) /\
  (forall (x : tensor) (w : nat),
      last_dim x = Ok w ->
      img_width (fst (A radon s x)) = Some w /\
      forall (y : tensor) (b c : nat) (rest : list nat),
        shape y = b :: c :: rest ->
        A_adjoint radon iradon adjoint_function (fst (A radon s x)) y
        = adjoint_function (fun x' => snd (A radon (fst (A radon s x)) x')) [b; c; w; w] y) /\
  (forall (w : nat) (s' : state),
      init angles (Some w) true = Ok s' ->
      forall (y : tensor) (b c : nat) (rest : list nat),
        shape y = b :: c :: rest ->
        A_adjoint radon iradon adjoint_function s' y
        = adjoint_function (fun x' => snd (A radon s' x')) [b; c; w; w] y).
Proof.
  intros Hinit.
  assert (Hs : fan_beam s = true /\ img_width s = None).
  { unfold init in Hinit. destruct angles as [k|t]; cbn [bind] in Hinit.
    - destruct (linspace 0 180 (k + 1)); try discriminate Hinit.
      cbn [bind] in Hinit. injection Hinit as <-. split; reflexivity.
    - injection Hinit as <-. split; reflexivity. }
  destruct Hs as [Hfan Hw]. split; [|split].
  - intros y. unfold A_adjoint. rewrite Hfan, Hw. reflexivity.
  - intros x w Hx.
    assert (Hs' : fst (A radon s x) = mkState (fan_beam s) (Some w) (theta s))
      by (unfold A; rewrite Hw, Hx; reflexivity).
    rewrite Hs'. split; [reflexivity|]. intros y b c rest Hy.
    unfold A_adjoint. cbn [fan_beam img_width]. rewrite Hfan, Hy. reflexivity.
  - intros w s' Hinit' y b c rest Hy.
    assert (Hs' : fan_beam s' = true /\ img_width s' = Some w).
    { unfold init in Hinit'. destruct angles as [k|t]; cbn [bind] in Hinit'.
      - destruct (linspace 0 180 (k + 1)); try discriminate Hinit'.
        cbn [bind] in Hinit'. injection Hinit' as <-. split; reflexivity.
      - injection Hinit' as <-. split; reflexivity. }
    destruct Hs' as [Hfan' Hw']. unfold A_adjoint. rewrite Hfan', Hw', Hy. reflexivity.
Qed.

End Collaborators.

Lemma fan_beam_adjoint_needs_width_witness :
  init (AngleTensor [0; 90]) None true = Ok (mkState true None [0; 90]) /\
  A_adjoint id_radon id_iradon reshape_adjoint (mkState true None [0; 90])
            (mkTensor [1; 1; 2; 2]%nat [1; 2; 3; 4])
  = Raise (AssertionError image_size_unknown).
Proof.
  split; [reflexivity|].
  apply (fan_beam_adjoint_needs_width id_radon id_iradon reshape_adjoint
           (AngleTensor [0; 90]) (mkState true None [0; 90]) eq_refl).
Defined.

End TomographyFacts.

(** ** EPLL *)

Section EPLLFacts.
Import EPLL.

Lemma pick_single (pick : vec -> R) (a : R) : keeps_a_write pick -> pick [a] = a.
Proof. intros H. destruct (H a []) as [E|[]]. symmetry; exact E. Qed.

Lemma J4_inv_reg_inverts (reg : R) :
  0 < reg -> matmul 4 (J4_reg reg) (J4_inv_reg reg) = I4.
Proof.
  intros Hreg. unfold matmul, J4_reg, J4_inv_reg, I4.
  cbv -[Rplus Rmult Rdiv Rminus Ropp Rinv IZR].
  repeat (apply (f_equal2 (@cons vec)); [vec_eq ltac:(field; lra)|]). reflexivity.
Qed.

Lemma x_tilde23_one_by_one (pick : vec -> R) :
  keeps_a_write pick ->
  x_tilde23 pick 1 = Ok [1 / 5; 1 / 10; 0; 1 / 5; 1 / 10; 0].
Proof.
  intros Hp. unfold x_tilde23, x_tilde, img23.
  cbv -[Rplus Rmult Rdiv Rminus Ropp Rinv IZR].
  rewrite !(pick_single pick _ Hp).
  apply f_equal. vec_eq ltac:(field_simplify; lra).
Qed.

Lemma x_tilde23_all_at_once (pick : vec -> R) :
  keeps_a_write pick ->
  x_tilde23 pick (-1) = Ok [1 / 5; pick [1 / 5; 0]; 0; 1 / 5; pick [1 / 5; 0]; 0].
Proof.
  intros Hp. unfold x_tilde23, x_tilde, img23.
  cbv -[Rplus Rmult Rdiv Rminus Ropp Rinv IZR].
  rewrite !(pick_single pick _ Hp).
  assert (Hm : pick [0 + 1; 0 + 1] = 1).
  { destruct (Hp (0 + 1) [0 + 1]) as [E|[E|[]]]; rewrite <- E; ring. }
  rewrite Hm.
  repeat match goal with
         | |- context [pick [?a; ?b]] =>
             progress (replace a with (1 / 5) by (field_simplify; lra);
                       replace b with 0 by (field_simplify; lra))
         end.
  apply f_equal. vec_eq ltac:(field_simplify; lra).
Qed.

Lemma last_write_keeps : keeps_a_write last_write.
Proof.
  intros c cs. unfold last_write. revert c.
  induction cs as [|d cs IH]; intros c; [left; reflexivity|].
  right. exact (IH d).
Qed.

(** C2, on the code: on a 2 x 3 image with 2 x 2 patches, whatever write
    survives a duplicate index, the consensus image computed with all
    patches at once differs from the one computed patch by patch, which
    averages the two estimates of the shared pixels. *)
Theorem batch_size_changes_x_tilde (pick : vec -> R) :
  keeps_a_write pick ->
  exists all_at_once one_by_one : vec,
    x_tilde23 pick (-1) = Ok all_at_once /\
    x_tilde23 pick 1 = Ok one_by_one /\
    one_by_one = [1 / 5; 1 / 10; 0; 1 / 5; 1 / 10; 0] /\
    all_at_once <> one_by_one.
Proof.
  intros Hp. eexists. eexists.
  split; [apply x_tilde23_all_at_once; exact Hp|].
  split; [apply x_tilde23_one_by_one; exact Hp|].
  split; [reflexivity|].
  intros E. injection E as E _.
  destruct (Hp (1 / 5) [0]) as [H|[H|[]]]; rewrite <- H in E; lra.
Qed.

Lemma batch_size_changes_x_tilde_witness :
  keeps_a_write last_write /\
  exists all_at_once one_by_one : vec,
    x_tilde23 last_write (-1) = Ok all_at_once /\
    x_tilde23 last_write 1 = Ok one_by_one /\
    one_by_one = [1 / 5; 1 / 10; 0; 1 / 5; 1 / 10; 0] /\
    all_at_once <> one_by_one.
Proof.
  split; [exact last_write_keeps|].
  apply (batch_size_changes_x_tilde last_write last_write_keeps).
Defined.

Section Reconstruction.

Variable pick : vec -> R.
Variable get_cov : list matrix.
Variable get_cov_inv_reg : R -> list matrix.
Variable classify : R -> vec -> nat.
Variable conjugate_gradient :
  (tensor -> outcome tensor) -> tensor -> R -> R -> outcome tensor.
Variable patch_size : nat.

(** Line 107 reads the global name [deepinv], which the module never
    binds: a reconstruction step that gets as far as the linear solve
    raises [NameError]. *)
Lemma reconstruction_step_unbound_name
      (Aty x : tensor) (sigma_sq beta : R) (physics : LinearPhysics) (batch_size : Z)
      (xt : vec) :
  x_tilde pick get_cov get_cov_inv_reg classify patch_size x beta batch_size = Ok xt ->
  _reconstruction_step pick get_cov get_cov_inv_reg classify conjugate_gradient patch_size
                       Aty x sigma_sq beta physics batch_size
  = Raise (NameError "deepinv").
Proof.
  intros H. unfold _reconstruction_step. rewrite H. reflexivity.
Qed.

(** C1, on the code: for a batch of more than one measurement the call
    that [reconstruction] makes to itself passes neither [sigma_sq] nor
    [physics], so the whole call fails with a [TypeError] for these two
    missing arguments and returns no reconstruction. *)
Theorem reconstruction_of_a_batch_fails
        (depth : nat) (y x_init : tensor) (sigma_sq : R) (physics : LinearPhysics)
        (betas : option (list R)) (batch_size : option Z) (B : nat) (rest : list nat) :
  shape y = B :: rest ->
  (1 < B)%nat ->
  reconstruction pick get_cov get_cov_inv_reg classify conjugate_gradient patch_size
    (S depth) (mkCall (Some y) (Some x_init) (Some sigma_sq) (Some physics)
                        betas batch_size)
  = Raise (TypeError ["sigma_sq"; "physics"]%string).
Proof.
  intros Hshape HB. cbn [reconstruction]. rewrite Hshape.
  destruct (Nat.ltb_spec 1 B) as [_|H]; [|lia].
  destruct B as [|B]; [lia|]. cbn [seq mapM].
  destruct depth; reflexivity.
Qed.


End Reconstruction.

Lemma reconstruction_of_a_batch_fails_witness :
  (shape batch2 = [2; 1; 2; 3]%nat /\ (1 < 2)%nat) /\
  reconstruction last_write [J4] (fun reg => [J4_inv_reg reg]) (fun _ _ => 0%nat)
                 cg_rhs 2 1
                 (mkCall (Some batch2) (Some batch2) (Some 1) (Some id_physics) None None)
  = Raise (TypeError ["sigma_sq"; "physics"]%string).
Proof.
  split; [split; [reflexivity|lia]|].
  apply (reconstruction_of_a_batch_fails
           last_write [J4] (fun reg => [J4_inv_reg reg]) (fun _ _ => 0%nat) cg_rhs 2
           0 batch2 batch2 1 id_physics None None 2 [1; 2; 3]%nat).
  - reflexivity.
  - lia.
Defined.

End EPLLFacts.

(** * Further properties of the code *)

(** ** The transforms and the forward operator *)

Section TransformFacts.
Import CS.

Lemma rev_combine {S T : Type} (a : list S) (b : list T) :
  List.length a = List.length b -> rev (combine a b) = combine (rev a) (rev b).
Proof.
  revert b. induction a as [|x a IH]; intros [|y b] H; simpl in *; try lia.
  - reflexivity.
  - rewrite zip_app by (rewrite !length_rev; lia). rewrite IH by lia. reflexivity.
Qed.

Lemma tl_combine {S T : Type} (a : list S) (b : list T) :
  tl (combine a b) = combine (tl a) (tl b).
Proof.
  destruct a as [|x a]; [reflexivity|]. destruct b as [|y b]; [|reflexivity].
  simpl. symmetry. apply combine_nil.
Qed.

Lemma removelast_combine {S T : Type} (a : list S) (b : list T) :
  List.length a = List.length b ->
  removelast (combine a b) = combine (removelast a) (removelast b).
Proof.
  intros H. rewrite !removelast_firstn_len, length_combine, combine_firstn.
  rewrite <- H, Nat.min_id. reflexivity.
Qed.

Lemma removelast_map {S T : Type} (f : S -> T) (l : list S) :
  removelast (map f l) = map f (removelast l).
Proof. rewrite !removelast_firstn_len, length_map. apply firstn_map. Qed.

Lemma flip_inner_length (x : vec) : List.length (flip_inner x) = (List.length x - 2)%nat.
Proof.
  unfold flip_inner. rewrite removelast_firstn_len, length_firstn, length_tl, length_rev. lia.
Qed.

Lemma flip_inner_vadd (a b : vec) :
  List.length a = List.length b ->
  flip_inner (vadd a b) = vadd (flip_inner a) (flip_inner b).
Proof.
  intros H. unfold flip_inner, vadd.
  rewrite <- map_rev, tl_map, removelast_map.
  rewrite rev_combine by exact H. rewrite tl_combine.
  rewrite removelast_combine by (rewrite !length_tl, !length_rev; lia).
  reflexivity.
Qed.

Lemma flip_inner_vscale (c : R) (a : vec) :
  flip_inner (vscale c a) = vscale c (flip_inner a).
Proof.
  unfold flip_inner, vscale. rewrite <- map_rev, tl_map, removelast_map. reflexivity.
Qed.

Lemma nth_vadd (a b : vec) (i : nat) :
  List.length a = List.length b -> nth i (vadd a b) 0 = nth i a 0 + nth i b 0.
Proof.
  revert b i. induction a as [|x a IH]; intros [|y b] i H; simpl in *; try lia.
  - destruct i; lra.
  - destruct i; [reflexivity|]. apply IH. lia.
Qed.

Lemma nth_vscale (c : R) (a : vec) (i : nat) : nth i (vscale c a) 0 = c * nth i a 0.
Proof.
  unfold vscale. replace 0 with (c * 0) at 1 by ring. apply map_nth.
Qed.

Lemma vsum_map_add {T : Type} (f g : T -> R) (l : list T) :
  vsum (map (fun j => f j + g j) l) = vsum (map f l) + vsum (map g l).
Proof. induction l as [|x l IH]; simpl; [ring|rewrite IH; ring]. Qed.

Lemma vsum_map_scale {T : Type} (c : R) (f : T -> R) (l : list T) :
  vsum (map (fun j => c * f j) l) = c * vsum (map f l).
Proof. induction l as [|x l IH]; simpl; [ring|rewrite IH; ring]. Qed.

Lemma rfft_re_vadd (a b : vec) :
  List.length a = List.length b -> rfft_re (vadd a b) = vadd (rfft_re a) (rfft_re b).
Proof.
  intros H. unfold rfft_re. rewrite vadd_length by exact H. rewrite <- H, vadd_map.
  apply map_ext. intros k. rewrite <- vsum_map_add. f_equal.
  apply map_ext. intros j. rewrite nth_vadd by exact H. ring.
Qed.

Lemma rfft_re_vscale (c : R) (a : vec) : rfft_re (vscale c a) = vscale c (rfft_re a).
Proof.
  unfold rfft_re. rewrite vscale_length. unfold vscale at 2. rewrite map_map.
  apply map_ext. intros k. rewrite <- vsum_map_scale. f_equal.
  apply map_ext. intros j. rewrite nth_vscale. ring.
Qed.

Lemma vadd_app (a a' b b' : vec) :
  List.length a = List.length b -> vadd (a ++ a') (b ++ b') = vadd a b ++ vadd a' b'.
Proof. intros H. unfold vadd. rewrite zip_app by exact H. apply map_app. Qed.

Lemma vdiv_vadd (a b : vec) (s : R) : vdiv (vadd a b) s = vadd (vdiv a s) (vdiv b s).
Proof.
  revert b. induction a as [|x a IH]; intros [|y b]; try reflexivity.
  unfold vdiv, vadd in *. simpl. rewrite IH. f_equal. unfold Rdiv. ring.
Qed.

Lemma vdiv_vscale (c : R) (a : vec) (s : R) : vdiv (vscale c a) s = vscale c (vdiv a s).
Proof.
  unfold vdiv, vscale. rewrite !map_map. apply map_ext. intros x. unfold Rdiv. ring.
Qed.

Lemma rfft_re_length (x : vec) : List.length (rfft_re x) = (List.length x / 2 + 1)%nat.
Proof. unfold rfft_re. rewrite length_map, length_seq. reflexivity. Qed.

Lemma dct1_lin (c : R) (a b : vec) :
  (2 <= List.length a)%nat ->
  List.length a = List.length b ->
  dct1 (vadd (vscale c a) b) = vadd (vscale c (dct1 a)) (dct1 b) /\
  List.length (dct1 a) = List.length a.
Proof.
  intros Hn H. split.
  - unfold dct1. rewrite vadd_length by (rewrite vscale_length; exact H).
    rewrite vscale_length, <- H.
    rewrite flip_inner_vadd by (rewrite vscale_length; exact H).
    rewrite flip_inner_vscale.
    rewrite <- vadd_app by (rewrite vscale_length; exact H).
    unfold vscale at 1 2. rewrite <- map_app. fold (vscale c (a ++ flip_inner a)).
    rewrite rfft_re_vadd by (rewrite vscale_length, !length_app, !flip_inner_length; lia).
    rewrite rfft_re_vscale, vdiv_vadd, vdiv_vscale. reflexivity.
  - unfold dct1. rewrite vdiv_length, rfft_re_length, length_app, flip_inner_length.
    replace (List.length a + (List.length a - 2))%nat with ((List.length a - 1) * 2)%nat by lia.
    rewrite Nat.div_mul by lia. lia.
Qed.

(** X1: on rows of equal length at least 2, [dct1] is linear: the transform
    of [c * a + b] is [c * dct1 a + dct1 b]; it keeps the length of its input. *)
Theorem dct1_is_linear (c : R) (a b : vec) :
  (2 <= List.length a)%nat ->
  List.length a = List.length b ->
  dct1 (vadd (vscale c a) b) = vadd (vscale c (dct1 a)) (dct1 b) /\
  List.length (dct1 a) = List.length a.
Proof. exact (dct1_lin c a b). Qed.

Lemma dct1_is_linear_witness :
  Nat.le 2 (List.length ([1; 2; 3] : vec)) /\
  dct1 (vadd (vscale 5 [1; 2; 3]) [0; 1; 0]) = vadd (vscale 5 (dct1 [1; 2; 3])) (dct1 [0; 1; 0]).
Proof.
  split; [simpl; lia|].
  apply (dct1_is_linear 5 [1; 2; 3] [0; 1; 0]); [simpl; lia|reflexivity].
Defined.

End TransformFacts.

Section Linearity.
Import CS.

Lemma skipn_combine {S T : Type} (n : nat) (a : list S) (b : list T) :
  skipn n (combine a b) = combine (skipn n a) (skipn n b).
Proof.
  revert a b. induction n as [|n IH]; intros a b; [reflexivity|].
  destruct a as [|x a]; [reflexivity|]. destruct b as [|y b].
  - simpl. symmetry. apply combine_nil.
  - simpl. apply IH.
Qed.

Lemma lin_length (c : R) (a b : vec) :
  List.length a = List.length b -> List.length (lin c a b) = List.length a.
Proof. intros H. unfold lin. rewrite vadd_length; rewrite vscale_length; auto. Qed.

Lemma firstn_lin (k : nat) (c : R) (a b : vec) :
  firstn k (lin c a b) = lin c (firstn k a) (firstn k b).
Proof.
  unfold lin, vadd, vscale. rewrite firstn_map, combine_firstn, firstn_map. reflexivity.
Qed.

Lemma skipn_lin (k : nat) (c : R) (a b : vec) :
  skipn k (lin c a b) = lin c (skipn k a) (skipn k b).
Proof.
  unfold lin, vadd, vscale. rewrite skipn_map, skipn_combine, skipn_map. reflexivity.
Qed.

Lemma lin_app (c : R) (a a' b b' : vec) :
  List.length a = List.length b -> lin c (a ++ a') (b ++ b') = lin c a b ++ lin c a' b'.
Proof.
  intros H. unfold lin. unfold vscale at 1. rewrite map_app.
  apply vadd_app. rewrite vscale_length. exact H.
Qed.

(** Cutting rows and applying a linear row map commute with linear
    combinations of the buffers. *)
Lemma rows_lin (f : vec -> vec) (n k : nat) (c : R) :
  (forall r r', List.length r = n -> List.length r' = n ->
                f (lin c r r') = lin c (f r) (f r')) ->
  (forall r, List.length r = n -> List.length (f r) = k) ->
  forall (count : nat) (d d' : vec),
    List.length d = (count * n)%nat -> List.length d' = (count * n)%nat ->
    concat (map f (chunks n count (lin c d d')))
    = lin c (concat (map f (chunks n count d))) (concat (map f (chunks n count d'))).
Proof.
  intros Hf Hk count. induction count as [|count IH]; intros d d' Hd Hd'; [reflexivity|].
  cbn [chunks map concat]. rewrite firstn_lin, skipn_lin.
  assert (L1 : List.length (firstn n d) = n) by (rewrite length_firstn; simpl in Hd; lia).
  assert (L2 : List.length (firstn n d') = n) by (rewrite length_firstn; simpl in Hd'; lia).
  rewrite Hf by assumption.
  rewrite IH by (rewrite length_skipn; simpl in Hd, Hd'; lia).
  rewrite lin_app by (rewrite !Hk by assumption; reflexivity). reflexivity.
Qed.

Lemma A_rows (op : CompressedSensing) (x : tensor) (N C : nat) (rest : list nat) :
  shape x = N :: C :: rest ->
  let R := (if channelwise op then N * C else N)%nat in
  R <> 0%nat ->
  List.length (data x) = (R * row_need op)%nat ->
  A op x = Ok (mkTensor
                 (if channelwise op
                  then [N; C; row_len (map (row_map op) (chunks (row_need op) R (data x)))]
                  else [N; row_len (map (row_map op) (chunks (row_need op) R (data x)))])
                 (concat (map (row_map op) (chunks (row_need op) R (data x))))).
Proof.
  intros Hshape R HR Hlen. unfold A. rewrite Hshape. fold R.
  rewrite (reshape_rows_ok R (row_need op)) by assumption. cbn [bind].
  destruct (chunks_shape (row_need op) R (data x) Hlen) as [_ Fc].
  unfold row_map, row_need in *. destruct (mode op);
    rewrite on_rows_ok by exact Fc; reflexivity.
Qed.

Lemma dot_vscale_r (c : R) (r x : vec) : dot r (vscale c x) = c * dot r x.
Proof.
  revert x. induction r as [|a r IH]; intros [|b x]; rewrite ?dot_nil_r;
    try (unfold dot; simpl; ring).
  change (vscale c (b :: x)) with (c * b :: vscale c x).
  rewrite !dot_cons, IH. ring.
Qed.

Lemma matvec_lin (M : matrix) (c : R) (r r' : vec) :
  List.length r = List.length r' ->
  matvec M (lin c r r') = lin c (matvec M r) (matvec M r').
Proof.
  intros H. unfold lin. rewrite matvec_vadd by (rewrite vscale_length; exact H).
  f_equal. unfold matvec, vscale at 2. rewrite map_map.
  apply map_ext. intros row. apply dot_vscale_r.
Qed.

Lemma vmul_lin (c : R) (r r' D : vec) :
  List.length r = List.length r' ->
  vmul (lin c r r') D = lin c (vmul r D) (vmul r' D).
Proof.
  revert r' D. induction r as [|a r IH]; intros [|b r'] [|d D] H; simpl in *;
    try lia; try reflexivity.
  unfold lin, vmul, vadd, vscale in *. simpl. rewrite IH by lia. f_equal. ring.
Qed.

Lemma vmul_length (a b : vec) :
  List.length a = List.length b -> List.length (vmul a b) = List.length a.
Proof.
  intros H. unfold vmul. rewrite length_map, length_combine, <- H. apply Nat.min_id.
Qed.

Lemma select_lin (mask : list bool) (c : R) (a b : vec) :
  List.length a = List.length b ->
  select mask (lin c a b) = lin c (select mask a) (select mask b).
Proof.
  revert a b. induction mask as [|m mask IH]; intros [|x a] [|y b] H;
    try discriminate H; try reflexivity.
  change (lin c (x :: a) (y :: b)) with (c * x + y :: lin c a b).
  injection H as H.
  destruct m; cbn [select]; rewrite IH by exact H; reflexivity.
Qed.

Lemma select_length (mask : list bool) (x : vec) :
  List.length x = List.length mask -> List.length (select mask x) = count_true mask.
Proof.
  revert x. induction mask as [|b mask IH]; intros [|v x] H; simpl in *; try lia.
  - reflexivity.
  - unfold count_true in *. destruct b; simpl; rewrite IH by lia; reflexivity.
Qed.

Lemma row_map_lin (op : CompressedSensing) (c : R) (r r' : vec) :
  well_formed op ->
  List.length r = row_need op -> List.length r' = row_need op ->
  row_map op (lin c r r') = lin c (row_map op r) (row_map op r') /\
  List.length (row_map op r) = List.length (row_map op r').
Proof.
  unfold well_formed, row_map, row_need. destruct (mode op) as [n D mask|m n M Ad At].
  - intros (Hn & HD & Hm) Hr Hr'.
    assert (L : List.length (vmul r D) = n) by (rewrite vmul_length; lia).
    assert (L' : List.length (vmul r' D) = n) by (rewrite vmul_length; lia).
    destruct (dct1_lin c (vmul r D) (vmul r' D)) as [E Ld]; [lia|lia|].
    destruct (dct1_lin c (vmul r' D) (vmul r D)) as [_ Ld']; [lia|lia|].
    split.
    + rewrite vmul_lin by lia.
      change (dct1 (lin c (vmul r D) (vmul r' D)))
        with (dct1 (vadd (vscale c (vmul r D)) (vmul r' D))).
      rewrite E. apply (select_lin mask c (dct1 (vmul r D)) (dct1 (vmul r' D))). lia.
    + rewrite !select_length by lia. reflexivity.
  - intros _ Hr Hr'. split; [apply matvec_lin; lia|].
    rewrite !matvec_length. reflexivity.
Qed.

(** X2: in both modes the forward map [A] is linear on batches of the
    expected size: [A (c * x + x') = c * A x + A x'], all three calls return
    and the results have one shape. *)
Theorem forward_is_linear (op : CompressedSensing) (c : R) (x x' : tensor)
        (N C : nat) (rest : list nat) :
  well_formed op ->
  shape x = N :: C :: rest ->
  shape x' = N :: C :: rest ->
  (if channelwise op then N * C else N)%nat <> 0%nat ->
  List.length (data x) = ((if channelwise op then N * C else N) * row_need op)%nat ->
  List.length (data x') = ((if channelwise op then N * C else N) * row_need op)%nat ->
  exists y y' : tensor,
    A op x = Ok y /\ A op x' = Ok y' /\ shape y' = shape y /\
    A op (mkTensor (N :: C :: rest) (vadd (vscale c (data x)) (data x')))
    = Ok (mkTensor (shape y) (vadd (vscale c (data y)) (data y'))).
Proof.
  intros Hwf Hs Hs' HR Hl Hl'.
  set (R := (if channelwise op then N * C else N)%nat) in *.
  set (n := row_need op) in *.
  set (k := List.length (row_map op (firstn n (data x)))).
  assert (Hk : forall r, List.length r = n -> List.length (row_map op r) = k).
  { intros r Hr. subst k. apply (row_map_lin op 0 r (firstn n (data x)) Hwf Hr).
    rewrite length_firstn. destruct R; [contradiction|]. simpl in Hl. lia. }
  assert (Hrl : forall d, List.length d = (R * n)%nat ->
                          row_len (map (row_map op) (chunks n R d)) = k).
  { intros d Hd. destruct R as [|R']; [contradiction|]. cbn [chunks map row_len].
    apply Hk. rewrite length_firstn. simpl in Hd. lia. }
  fold (lin c (data x) (data x')).
  assert (Hll : List.length (lin c (data x) (data x')) = (R * n)%nat)
    by (rewrite lin_length; lia).
  do 2 eexists.
  split; [apply (A_rows op x N C rest Hs HR Hl)|].
  split; [apply (A_rows op x' N C rest Hs' HR Hl')|].
  fold R n. cbn [shape data]. rewrite !Hrl by assumption.
  split; [reflexivity|].
  rewrite (A_rows op (mkTensor (N :: C :: rest) (lin c (data x) (data x'))) N C rest eq_refl HR Hll).
  fold R n. cbn [data]. rewrite Hrl by exact Hll.
  f_equal. f_equal.
  apply (rows_lin (row_map op) n k c); try assumption.
  intros r r' Hr Hr'. apply (row_map_lin op c r r' Hwf Hr Hr').
Qed.

Lemma forward_is_linear_witness :
  well_formed fast3 /\
  exists y y' : tensor,
    A fast3 (mkTensor [1; 1; 1; 3]%nat [1; 2; 3]) = Ok y /\
    A fast3 (mkTensor [1; 1; 1; 3]%nat [0; 1; 0]) = Ok y' /\ shape y' = shape y /\
    A fast3 (mkTensor [1; 1; 1; 3]%nat (vadd (vscale 5 [1; 2; 3]) [0; 1; 0]))
    = Ok (mkTensor (shape y) (vadd (vscale 5 (data y)) (data y'))).
Proof.
  assert (H : well_formed fast3) by (repeat split; simpl; lia).
  split; [exact H|].
  apply (forward_is_linear fast3 5 (mkTensor [1; 1; 1; 3]%nat [1; 2; 3])
           (mkTensor [1; 1; 1; 3]%nat [0; 1; 0]) 1 1 [1; 3]%nat H eq_refl eq_refl).
  - simpl. lia.
  - reflexivity.
  - reflexivity.
Defined.

End Linearity.

Section MoreHadamard.
Import Hadamard.

(** X3: for rows of length [2^m] the butterfly loop of [hadamard], without
    normalisation, multiplies every row by the Sylvester Hadamard matrix of
    order [2^m] and keeps the row length. *)
Theorem hadamard_is_matrix_product (m : nat) (u : matrix) :
  Forall (fun row => List.length row = (2 ^ m)%nat) u ->
  hadamard (2 ^ m) u false = Ok (map (matvec (sylvester m)) u) /\
  Forall (fun row => List.length row = (2 ^ m)%nat) (map (matvec (sylvester m)) u).
Proof.
  intros Hu. split.
  - rewrite hadamard_pow2 by exact Hu. reflexivity.
  - apply Forall_map. apply Forall_forall. intros row _.
    rewrite matvec_length. apply sylvester_shape.
Qed.

Lemma hadamard_is_matrix_product_witness :
  Forall (fun row => List.length row = (2 ^ 2)%nat) [[1; 2; 3; 4]; [0; 0; 1; 0]] /\
  hadamard (2 ^ 2) [[1; 2; 3; 4]; [0; 0; 1; 0]] false
  = Ok (map (matvec (sylvester 2)) [[1; 2; 3; 4]; [0; 0; 1; 0]]).
Proof.
  assert (H : Forall (fun row => List.length row = (2 ^ 2)%nat) [[1; 2; 3; 4]; [0; 0; 1; 0]])
    by (repeat constructor).
  split; [exact H|]. apply (hadamard_is_matrix_product 2 _ H).
Defined.

(** X4: applied twice to rows of length [2^m], the unnormalised transform
    scales every row by [2^m], and the normalised transform gives the rows
    back. *)
Theorem hadamard_twice_any_power (m : nat) (u : matrix) :
  Forall (fun row => List.length row = (2 ^ m)%nat) u ->
  (h <- hadamard (2 ^ m) u false ;; hadamard (2 ^ m) h false)
  = Ok (map (vscale (2 ^ m)) u) /\
  (h <- hadamard (2 ^ m) u true ;; hadamard (2 ^ m) h true) = Ok u.
Proof.
  intros Hu. split.
  - rewrite hadamard_pow2 by exact Hu. cbn [bind].
    rewrite hadamard_pow2.
    + f_equal. rewrite map_map. apply map_ext_in. intros row Hrow.
      rewrite Forall_forall in Hu. apply sylvester_involution. apply Hu. exact Hrow.
    + apply Forall_map. apply Forall_forall. intros row _.
      rewrite matvec_length. apply sylvester_shape.
  - apply (hadamard_twice_pow2 m u Hu).
Qed.

Lemma hadamard_twice_any_power_witness :
  Forall (fun row => List.length row = (2 ^ 5)%nat) [repeat 1 32] /\
  (h <- hadamard (2 ^ 5) [repeat 1 32] true ;; hadamard (2 ^ 5) h true)
  = Ok [repeat 1 32].
Proof.
  assert (H : Forall (fun row => List.length row = (2 ^ 5)%nat) [repeat 1 32])
    by (repeat constructor).
  split; [exact H|]. apply (hadamard_twice_any_power 5 _ H).
Defined.

End MoreHadamard.

Section MaskFacts.
Import CS.

(** X5: writing a row of measurements into the masked positions of a zero
    row ([A_adjoint], lines 117-118) and reading the masked positions back
    ([A], line 97) returns the measurements; the zero-filled row has the
    length of the mask. *)
Theorem select_scatter (mask : list bool) (y : vec) :
  List.length y = count_true mask ->
  select mask (scatter mask y) = y /\
  List.length (scatter mask y) = List.length mask.
Proof.
  revert y. induction mask as [|b mask IH]; intros y H.
  - destruct y; [split; reflexivity|discriminate H].
  - destruct b.
    + destruct y as [|v y]; [discriminate H|].
      destruct (IH y) as [E L]; [unfold count_true in *; simpl in H; lia|].
      cbn [scatter select List.length]. rewrite E, L. split; reflexivity.
    + destruct (IH y) as [E L]; [exact H|].
      cbn [scatter select List.length]. rewrite E, L. split; reflexivity.
Qed.

Lemma select_scatter_witness :
  List.length ([7; 9] : vec) = count_true [true; false; false; true] /\
  select [true; false; false; true] (scatter [true; false; false; true] [7; 9]) = [7; 9].
Proof.
  split; [reflexivity|].
  apply (select_scatter [true; false; false; true] [7; 9] eq_refl).
Defined.

(** X6: reading the masked positions of a row and writing them back into a
    zero row keeps the entries under the mask and zeroes the others; the
    number of entries read is the number of true positions of the mask. *)
Theorem scatter_select (mask : list bool) (x : vec) :
  List.length x = List.length mask ->
  scatter mask (select mask x)
  = map (fun bv : bool * R => if fst bv then snd bv else 0) (combine mask x) /\
  List.length (select mask x) = count_true mask.
Proof.
  revert x. induction mask as [|b mask IH]; intros x H.
  - destruct x; [split; reflexivity|discriminate H].
  - destruct x as [|v x]; [discriminate H|].
    destruct (IH x) as [E L]; [simpl in H; lia|].
    destruct b; cbn [select scatter combine map fst snd].
    + rewrite E. split; [reflexivity|]. unfold count_true in *. simpl. rewrite L. reflexivity.
    + rewrite E. split; [reflexivity|]. unfold count_true in *. simpl. exact L.
Qed.

Lemma scatter_select_witness :
  List.length ([1; 2; 3] : vec) = List.length [true; false; true] /\
  scatter [true; false; true] (select [true; false; true] [1; 2; 3]) = [1; 0; 3].
Proof.
  split; [reflexivity|].
  apply (scatter_select [true; false; true] [1; 2; 3] eq_refl).
Defined.

End MaskFacts.

Section OperatorShapes.
Import CS.

Lemma backward_image_shape (op : CompressedSensing) (y x : tensor) :
  A_adjoint op y = Ok x \/ A_dagger op y = Ok x ->
  exists (N : nat) (rest : list nat),
    shape y = N :: rest /\
    let '(C, H, W) := img_shape op in
    shape x = [N; C; H; W] /\ List.length (data x) = (N * C * H * W)%nat.
Proof.
  assert (Hadj : forall y x, A_adjoint op y = Ok x ->
            exists (N : nat) (rest : list nat),
              shape y = N :: rest /\
              let '(C, H, W) := img_shape op in
              shape x = [N; C; H; W] /\ List.length (data x) = (N * C * H * W)%nat).
  { clear y x. intros y x H. unfold A_adjoint in H.
    destruct (shape y) as [|N rest]; [discriminate H|].
    exists N, rest. split; [reflexivity|].
    destruct (img_shape op) as [[C Hh] W].
    destruct (if channelwise op then reshape_rows (N * C) y else rows_2d y) as [rows| |];
      try discriminate H. cbn [bind] in H.
    destruct (match mode op with
              | Fast n D mask =>
                  on_rows (count_true mask) (fun r => vmul (dct1 (scatter mask r)) D) rows
              | Dense m n _ _ _A_adjoint => on_rows m (matvec _A_adjoint) rows
              end) as [xs| |]; try discriminate H. cbn [bind] in H.
    destruct (Nat.eqb_spec (List.length (concat xs)) (N * C * Hh * W)) as [E|_];
      [|discriminate H].
    injection H as <-. split; [reflexivity|exact E]. }
  intros [H|H]; [exact (Hadj y x H)|].
  unfold A_dagger in H. destruct (mode op) as [n D mask|m n _A Ad At] eqn:Hmode.
  - exact (Hadj y x H).
  - destruct (shape y) as [|N rest]; [discriminate H|].
    exists N, rest. split; [reflexivity|].
    destruct (img_shape op) as [[C Hh] W].
    destruct (if channelwise op then reshape_rows (N * C) y else rows_2d y) as [rows| |];
      try discriminate H. cbn [bind] in H.
    destruct (on_rows m (matvec Ad) rows) as [xs| |]; try discriminate H. cbn [bind] in H.
    destruct (Nat.eqb_spec (List.length (concat xs)) (N * C * Hh * W)) as [E|_];
      [|discriminate H].
    injection H as <-. split; [reflexivity|exact E].
Qed.

(** X7: whenever [A_adjoint] or [A_dagger] returns, for a fast or a dense
    operator, the result has the shape [N x C x H x W] of a batch of images,
    with [N] the first dimension of the input, and that many entries. *)
Theorem backward_maps_return_image_shape (op : CompressedSensing) (y x : tensor) :
  A_adjoint op y = Ok x \/ A_dagger op y = Ok x ->
  exists (N : nat) (rest : list nat),
    shape y = N :: rest /\
    let '(C, H, W) := img_shape op in
    shape x = [N; C; H; W] /\ List.length (data x) = (N * C * H * W)%nat.
Proof. exact (backward_image_shape op y x). Qed.

Lemma backward_maps_return_image_shape_witness :
  A_adjoint unit_op (mkTensor [1; 1]%nat [2]) = Ok (mkTensor unit_shape [1 * 2 + 0]) /\
  exists (N : nat) (rest : list nat),
    [1; 1]%nat = N :: rest /\
    unit_shape = [N; 1; 1; 1]%nat /\ 1%nat = (N * 1 * 1 * 1)%nat.
Proof.
  assert (H : A_adjoint unit_op (mkTensor [1; 1]%nat [2])
              = Ok (mkTensor unit_shape [1 * 2 + 0])) by reflexivity.
  split; [exact H|].
  apply (backward_maps_return_image_shape unit_op (mkTensor [1; 1]%nat [2])
           (mkTensor unit_shape [1 * 2 + 0]) (or_introl H)).
Defined.

(** X8: [A] raises on an input with fewer than two dimensions (the
    unpacking of line 90) and on an input whose row count [N], or [N * C]
    for a channelwise operator, is 0 (the reshape of lines 92 and 94). *)
Theorem forward_refuses_degenerate_batches (op : CompressedSensing) (x : tensor) :
  (List.length (shape x) < 2)%nat \/
  (exists N C rest, shape x = N :: C :: rest /\
                    (if channelwise op then N * C else N)%nat = 0%nat) ->
  A op x = Raise (if (List.length (shape x) <? 2)%nat then ValueError else RuntimeError).
Proof.
  intros [H|(N & C & rest & Hs & H0)]; unfold A.
  - destruct (shape x) as [|a [|b l]]; simpl in H; try lia; reflexivity.
  - rewrite Hs. unfold reshape_rows. rewrite H0. reflexivity.
Qed.

Lemma forward_refuses_degenerate_batches_witness :
  (exists N C rest, shape (mkTensor [0; 1; 1; 3]%nat []) = N :: C :: rest /\
                    (if channelwise fast3 then N * C else N)%nat = 0%nat) /\
  A fast3 (mkTensor [0; 1; 1; 3]%nat []) = Raise RuntimeError.
Proof.
  assert (H : exists N C rest, shape (mkTensor [0; 1; 1; 3]%nat []) = N :: C :: rest /\
                    (if channelwise fast3 then N * C else N)%nat = 0%nat).
  { exists 0%nat, 1%nat, [1; 3]%nat. split; reflexivity. }
  split; [exact H|].
  apply (forward_refuses_degenerate_batches fast3 (mkTensor [0; 1; 1; 3]%nat []) (or_intror H)).
Defined.

Lemma dot_self_nonneg (a : vec) : 0 <= dot a a.
Proof.
  induction a as [|x a IH]; [unfold dot; simpl; lra|].
  rewrite dot_cons. nra.
Qed.

Lemma dot_comm (a b : vec) : dot a b = dot b a.
Proof.
  revert b. induction a as [|x a IH]; intros [|y b].
  - reflexivity.
  - rewrite dot_nil_r. reflexivity.
  - rewrite dot_nil_r. reflexivity.
  - rewrite !dot_cons, IH. ring.
Qed.

(** X9: in exact arithmetic the dense operator passes its own test: for
    every batch [u] of images and every draw [v] of the shape of [A(u)],
    [adjointness_test] returns 0. *)
Theorem dense_adjointness_test_is_zero
        (m C H W N : nat) (cw : bool) (_A Ad : matrix) (u : tensor) (v : vec) :
  (0 < m)%nat -> (0 < N)%nat -> (0 < C)%nat -> (0 < H)%nat -> (0 < W)%nat ->
  has_shape m (if cw then H * W else C * H * W)%nat _A ->
  shape u = [N; C; H; W] ->
  List.length (data u) = (N * C * H * W)%nat ->
  List.length v = ((if cw then N * C else N) * m)%nat ->
  adjointness_test (init_dense m (C, H, W) cw _A Ad) v u = Ok 0.
Proof.
  intros _ HN HC _ _ HA Hs Hl Hv.
  apply (dense_adjointness m C H W N cw _A Ad u v HA Hs Hl HN (fun _ => HC) Hv).
Qed.

Lemma dense_adjointness_test_is_zero_witness :
  has_shape 1 2 row11 /\
  adjointness_test (init_dense 1 (1, 1, 2)%nat false row11 row11_pinv) [7]
                   (mkTensor [1; 1; 1; 2]%nat [3; 5]) = Ok 0.
Proof.
  assert (H : has_shape 1 2 row11) by (split; [reflexivity|repeat constructor]).
  split; [exact H|].
  apply (dense_adjointness_test_is_zero 1 1 1 2 1 false row11 row11_pinv
           (mkTensor [1; 1; 1; 2]%nat [3; 5]) [7]); try lia; try reflexivity.
  exact H.
Defined.

(** X10: in dense mode [A_adjoint(A(u))] has the shape of [u], and paired
    with [u] it gives the squared norm of [A(u)], which is not negative. *)
Theorem dense_normal_map_is_positive
        (m C H W N : nat) (cw : bool) (_A Ad : matrix) (u : tensor) :
  (0 < m)%nat -> (0 < N)%nat -> (0 < C)%nat -> (0 < H)%nat -> (0 < W)%nat ->
  has_shape m (if cw then H * W else C * H * W)%nat _A ->
  shape u = [N; C; H; W] ->
  List.length (data u) = (N * C * H * W)%nat ->
  exists y w : tensor,
    A (init_dense m (C, H, W) cw _A Ad) u = Ok y /\
    A_adjoint (init_dense m (C, H, W) cw _A Ad) y = Ok w /\
    shape w = shape u /\
    dot (data u) (data w) = dot (data y) (data y) /\
    0 <= dot (data u) (data w).
Proof.
  intros _ HN HC0 _ _ HA Hshape Hlen.
  assert (HC : cw = true -> (0 < C)%nat) by (intros _; exact HC0).
  set (op := init_dense m (C, H, W) cw _A Ad).
  set (n := (if cw then H * W else C * H * W)%nat) in *.
  set (R := (if cw then N * C else N)%nat).
  assert (HR : R <> 0%nat) by (subst R; destruct cw; [specialize (HC eq_refl)|]; nia).
  assert (HRn : (R * n = N * C * H * W)%nat) by (subst R n; destruct cw; lia).
  destruct HA as [HAl HAr].
  assert (HAu : A op u = Ok (mkTensor (if channelwise op then [N; C; m] else [N; m])
                                      (concat (map (matvec _A) (chunks n R (data u)))))).
  { apply (A_dense_rows op m n _A Ad (transpose n _A) u N C [H; W]);
      try assumption; try reflexivity;
      change (channelwise op) with cw; fold R; try assumption; lia. }
  set (y := mkTensor (if channelwise op then [N; C; m] else [N; m])
                     (concat (map (matvec _A) (chunks n R (data u))))) in *.
  assert (Hylen : List.length (data y) = (R * m)%nat).
  { subst y. cbn [data]. rewrite (concat_uniform_length m).
    - rewrite length_map. destruct (chunks_shape n R (data u)) as [L _]; [lia|].
      rewrite L. reflexivity.
    - apply map_matvec_shape. exact HAl. }
  pose proof (dense_adjointness m C H W N cw _A Ad u (data y)
                (conj HAl HAr) Hshape Hlen HN HC Hylen) as Ht.
  unfold adjointness_test in Ht. fold op in Ht. rewrite HAu in Ht. cbn [bind] in Ht.
  change (mkTensor (shape y) (data y)) with y in Ht.
  destruct (A_adjoint op y) as [w| |] eqn:Hw; try discriminate Ht.
  cbn [bind] in Ht. injection Ht as Ht.
  exists y, w. split; [exact HAu|]. split; [exact Hw|].
  change (concat (map (matvec _A) (chunks n R (data u)))) with (data y) in Ht.
  destruct (backward_image_shape op y w (or_introl Hw)) as (N' & rest & Hy & Hsw).
  cbn [img_shape op init_dense] in Hsw. destruct Hsw as [Hsw _].
  assert (N' = N) by (subst y; cbn [shape] in Hy; destruct (channelwise op); congruence).
  subst N'. split; [congruence|].
  assert (E : dot (data u) (data w) = dot (data y) (data y)).
  { rewrite (dot_comm (data u)). lra. }
  split; [exact E|]. rewrite E. apply dot_self_nonneg.
Qed.

Lemma dense_normal_map_is_positive_witness :
  has_shape 1 2 row11 /\
  exists y w : tensor,
    A (init_dense 1 (1, 1, 2)%nat false row11 row11_pinv) (mkTensor [1; 1; 1; 2]%nat [3; 5])
      = Ok y /\
    A_adjoint (init_dense 1 (1, 1, 2)%nat false row11 row11_pinv) y = Ok w /\
    shape w = [1; 1; 1; 2]%nat /\
    dot [3; 5] (data w) = dot (data y) (data y) /\
    0 <= dot [3; 5] (data w).
Proof.
  assert (H : has_shape 1 2 row11) by (split; [reflexivity|repeat constructor]).
  split; [exact H|].
  apply (dense_normal_map_is_positive 1 1 1 2 1 false row11 row11_pinv
           (mkTensor [1; 1; 1; 2]%nat [3; 5])); try lia; try reflexivity.
  exact H.
Defined.

End OperatorShapes.

(** ** The power method *)

Section MorePowerMethod.
Import CS.

Lemma run_shape op tol verbose todo it x zold z r :
  power_iterations op tol verbose todo it x zold z = Ok r ->
  (it <= iterations r <= it + todo)%nat /\
  (printed r = [] /\ iterations r = (it + todo)%nat \/
   verbose = true /\ printed r = [(iterations r - 1)%nat] /\ (it < iterations r)%nat) /\
  (z = None -> (it < iterations r)%nat).
Proof.
  revert it x zold z. induction todo as [|todo IH]; intros it x zold z H.
  - simpl in H. destruct z; [|discriminate H]. injection H as <-. cbn.
    split; [lia|]. split; [left; split; [reflexivity|lia]|]. intros E; discriminate E.
  - rewrite power_iterations_succ in H.
    destruct (A op x) as [y| |]; try discriminate H. cbn [bind] in H.
    destruct (A_adjoint op y) as [y'| |]; try discriminate H. cbn [bind] in H.
    cbv zeta in H.
    destruct ((if Rlt_dec _ tol then true else false) && verbose) eqn:Hb.
    + cbn in H. injection H as <-. cbn.
      apply andb_true_iff in Hb. destruct Hb as [_ Hv].
      split; [lia|]. split; [|intros _; lia].
      right. split; [exact Hv|]. split; [|lia]. f_equal. lia.
    + apply IH in H. destruct H as (H1 & H2 & H3).
      split; [lia|]. split; [|intros _; lia].
      destruct H2 as [[P I]|(V & P & I)].
      * left. split; [exact P|lia].
      * right. split; [exact V|]. split; [exact P|lia].
Qed.

(** X11: a call of [power_method] that returns has run at least one and at
    most [max_iter] passes of the loop.  Either it ran all [max_iter] passes
    and printed nothing, or [verbose] is set and it printed once, at its last
    pass; with [verbose=False] it always runs all [max_iter] passes. *)
Theorem power_method_iteration_count
        (op : CompressedSensing) (randn : vec) (x0 : tensor)
        (max_iter : Z) (tol : R) (verbose : bool) (r : report) :
  power_method op randn x0 max_iter tol verbose = Ok r ->
  (1 <= iterations r <= Z.to_nat max_iter)%nat /\
  (printed r = [] /\ iterations r = Z.to_nat max_iter \/
   verbose = true /\ printed r = [(iterations r - 1)%nat]) /\
  (verbose = false -> iterations r = Z.to_nat max_iter).
Proof.
  intros H. unfold power_method in H. apply run_shape in H.
  destruct H as (H1 & H2 & H3). specialize (H3 eq_refl).
  split; [lia|]. split.
  - destruct H2 as [[P I]|(V & P & _)]; [left; split; [exact P|lia]|right; split; assumption].
  - intros Hv. destruct H2 as [[_ I]|(V & _)]; [lia|congruence].
Qed.

Lemma unit_one_pass :
  power_method unit_op [1] (mkTensor unit_shape [0]) 1 (1 / 1000) false
  = Ok (mkReport 1 1 []).
Proof.
  rewrite unit_start. change (Z.to_nat 1) with 1%nat.
  rewrite unit_step, andb_false_r. reflexivity.
Qed.

Lemma power_method_iteration_count_witness :
  power_method unit_op [1] (mkTensor unit_shape [0]) 1 (1 / 1000) false
  = Ok (mkReport 1 1 []) /\
  (1 <= iterations (mkReport 1 1 []) <= Z.to_nat 1)%nat.
Proof.
  split; [exact unit_one_pass|].
  apply (power_method_iteration_count unit_op [1] (mkTensor unit_shape [0]) 1 (1 / 1000)
           false (mkReport 1 1 []) unit_one_pass).
Defined.

(** X12: for every operator and start, [power_method] with [max_iter] at
    most 0 runs no pass and fails at [return z], the name being unbound. *)
Theorem power_method_needs_one_iteration
        (op : CompressedSensing) (randn : vec) (x0 : tensor)
        (max_iter : Z) (tol : R) (verbose : bool) :
  (max_iter <= 0)%Z ->
  power_method op randn x0 max_iter tol verbose = Raise (UnboundLocalError "z").
Proof.
  intros H. unfold power_method.
  replace (Z.to_nat max_iter) with 0%nat by lia. reflexivity.
Qed.

Lemma power_method_needs_one_iteration_witness :
  (-3 <= 0)%Z /\
  power_method fast3 [1; 2; 3] (mkTensor [1; 1; 1; 3]%nat [0; 0; 0]) (-3) (1 / 1000) false
  = Raise (UnboundLocalError "z").
Proof.
  split; [lia|]. apply (power_method_needs_one_iteration fast3 _ _ (-3)). lia.
Defined.

End MorePowerMethod.

(** ** Small transforms and the tomography operator *)

Section SmallTransforms.
Import CS.

Lemma dct1_2 (a b : R) : dct1 [a; b] = [(a + b) / sqrt 2; (a - b) / sqrt 2].
Proof.
  unfold dct1, rfft_re, flip_inner. cbn -[cos PI sqrt INR].
  replace (2 * (INR 2 - 1)) with 2 by (simpl; lra).
  replace (2 * PI * INR 0 * INR 0 / INR 2) with 0 by (simpl; field).
  replace (2 * PI * INR 1 * INR 0 / INR 2) with 0 by (simpl; field).
  replace (2 * PI * INR 0 * INR 1 / INR 2) with 0 by (simpl; field).
  replace (2 * PI * INR 1 * INR 1 / INR 2) with PI by (simpl; field).
  rewrite cos_0, cos_PI.
  assert (Hs : 0 < sqrt 2) by (apply sqrt_lt_R0; lra).
  vec_eq ltac:(field; lra).
Qed.

(** X13: on rows of length 2 or 3 the scaled transform [dct1] is its own
    inverse. *)
Theorem dct1_involution_small (x : vec) :
  List.length x = 2%nat \/ List.length x = 3%nat -> dct1 (dct1 x) = x.
Proof.
  intros [H|H].
  - destruct x as [|a [|b [|c x]]]; try discriminate H.
    rewrite !dct1_2.
    assert (Hs : 0 < sqrt 2) by (apply sqrt_lt_R0; lra).
    assert (Hq : sqrt 2 * sqrt 2 = 2) by (apply sqrt_sqrt; lra).
    apply (f_equal2 (@cons R)); [|apply (f_equal2 (@cons R)); [|reflexivity]].
    + transitivity (2 * a / (sqrt 2 * sqrt 2)); [field; lra|rewrite Hq; field].
    + transitivity (2 * b / (sqrt 2 * sqrt 2)); [field; lra|rewrite Hq; field].
  - destruct x as [|a [|b [|c [|d x]]]]; try discriminate H.
    rewrite !dct1_3. vec_eq ltac:(field).
Qed.

Lemma dct1_involution_small_witness :
  (List.length ([4; 5; 6] : vec) = 2%nat \/ List.length ([4; 5; 6] : vec) = 3%nat) /\
  dct1 (dct1 [4; 5; 6]) = [4; 5; 6].
Proof.
  split; [right; reflexivity|].
  apply (dct1_involution_small [4; 5; 6]). right. reflexivity.
Defined.
End SmallTransforms.

Section MoreTomography.
Import Tomography.

Variable radon : vec -> tensor -> outcome tensor.
Variable iradon : vec -> bool -> tensor -> outcome tensor.
Variable ramp_filter : tensor -> tensor.
Variable adjoint_function :
  (tensor -> outcome tensor) -> list nat -> tensor -> outcome tensor.

(** X14: [A] never changes the beam mode or the angles; it leaves an object
    whose width is known untouched, and on an object without a width it
    stores the last dimension of its first input, which later calls keep
    whatever they are given; on a 0-dimensional input it fails and stores
    nothing. *)
Theorem forward_resolves_width_once (s : state) (x x' : tensor) :
  fan_beam (fst (A radon s x)) = fan_beam s /\
  theta (fst (A radon s x)) = theta s /\
  (forall w, img_width s = Some w -> fst (A radon s x) = s) /\
  (forall w, img_width s = None -> last_dim x = Ok w ->
             img_width (fst (A radon s x)) = Some w /\
             fst (A radon (fst (A radon s x)) x') = fst (A radon s x)) /\
  (img_width s = None -> shape x = [] ->
   A radon s x = (s, Raise IndexError)).
Proof.
  unfold A. destruct (img_width s) as [w0|] eqn:Hw.
  - repeat split; try reflexivity; intros; try discriminate; reflexivity.
  - unfold last_dim. destruct (rev (shape x)) as [|w l] eqn:Hr.
    + repeat split; try reflexivity; intros; try discriminate.
    + cbn [fst fan_beam theta img_width]. repeat split; try reflexivity.
      * intros; discriminate.
      * injection H0 as <-. reflexivity.
      * intros _ Hs. rewrite Hs in Hr. discriminate Hr.
Qed.

(** X15: in fan-beam mode [A_dagger] is the adjoint of the filtered
    sinogram: without a width it fails with the assertion on the unknown
    image size, and with a width [w] it builds the adjoint for images of
    width [w] from the filtered input. *)
Theorem fan_beam_pseudo_inverse_needs_width (s : state) (y : tensor) :
  fan_beam s = true ->
  (img_width s = None ->
   A_dagger radon iradon ramp_filter adjoint_function s y
   = Raise (AssertionError image_size_unknown)) /\
  (forall w b c rest,
      img_width s = Some w -> shape (ramp_filter y) = b :: c :: rest ->
      A_dagger radon iradon ramp_filter adjoint_function s y
      = adjoint_function (fun x => snd (A radon s x)) [b; c; w; w] (ramp_filter y)).
Proof.
  intros Hf. unfold A_dagger, A_adjoint. rewrite Hf. split.
  - intros ->. reflexivity.
  - intros w b c rest -> ->. reflexivity.
Qed.

End MoreTomography.

Lemma fan_beam_pseudo_inverse_needs_width_witness :
  Tomography.fan_beam (Tomography.mkState true None [0; 90]) = true /\
  Tomography.A_dagger id_radon id_iradon id_filter reshape_adjoint
                      (Tomography.mkState true None [0; 90])
                      (mkTensor [1; 1; 2; 2]%nat [1; 2; 3; 4])
  = Raise (AssertionError Tomography.image_size_unknown).
Proof.
  split; [reflexivity|].
  apply (proj1 (fan_beam_pseudo_inverse_needs_width id_radon id_iradon id_filter
                  reshape_adjoint (Tomography.mkState true None [0; 90])
                  (mkTensor [1; 1; 2; 2]%nat [1; 2; 3; 4]) eq_refl)).
  reflexivity.
Defined.

(** ** The reconstruction of the patch prior *)

Section MoreEPLL.
Import EPLL.

Variable pick : vec -> R.
Variable get_cov : list matrix.
Variable get_cov_inv_reg : R -> list matrix.
Variable classify : R -> vec -> nat.
Variable conjugate_gradient :
  (tensor -> outcome tensor) -> tensor -> R -> R -> outcome tensor.
Variable patch_size : nat.

Lemma step_never_returns (Aty x : tensor) (sigma_sq beta : R) (physics : LinearPhysics)
      (batch_size : Z) (r : tensor) :
  _reconstruction_step pick get_cov get_cov_inv_reg classify conjugate_gradient patch_size
                       Aty x sigma_sq beta physics batch_size <> Ok r.
Proof.
  unfold _reconstruction_step.
  destruct (x_tilde pick get_cov get_cov_inv_reg classify patch_size x beta batch_size);
    discriminate.
Qed.

Lemma mapM_first_raise {S T : Type} (f : S -> outcome T) (a : S) (l : list S) (e : exn) :
  f a = Raise e -> mapM f (a :: l) = Raise e.
Proof. intros H. cbn [mapM]. rewrite H. reflexivity. Qed.

(** X16: a call of [reconstruction] returns a value exactly when all four
    required arguments are given, the schedule [betas] is the empty list, [y]
    holds at most one image and [physics.A_adjoint(y)] returns; the value is
    then [x_init] itself.  Every other call raises or does not return. *)
Theorem reconstruction_returns_only_without_steps (depth : nat) (c : call) (r : tensor) :
  reconstruction pick get_cov get_cov_inv_reg classify conjugate_gradient patch_size
                 (S depth) c = Ok r
  <->
  exists (y x_init Aty : tensor) (sigma_sq : R) (physics : LinearPhysics)
         (batch_size : option Z) (B : nat) (rest : list nat),
    c = mkCall (Some y) (Some x_init) (Some sigma_sq) (Some physics) (Some []) batch_size /\
    shape y = B :: rest /\ (B <= 1)%nat /\
    A_adjoint physics y = Ok Aty /\ r = x_init.
Proof.
  split.
  - intros H. destruct c as [[y|] [x_init|] [sigma_sq|] [physics|] betas bs];
      try discriminate H.
    cbn [reconstruction] in H.
    destruct (shape y) as [|B rest] eqn:Hs; [discriminate H|].
    destruct (Nat.ltb_spec 1 B) as [HB|HB].
    + destruct B as [|B]; [lia|]. cbn [seq] in H.
      rewrite (mapM_first_raise _ _ _ (TypeError ["sigma_sq"; "physics"]%string)) in H
        by (destruct depth; reflexivity).
      discriminate H.
    + destruct (A_adjoint physics y) as [Aty| |] eqn:HA; try discriminate H.
      cbn [bind] in H.
      destruct (resolve_betas betas sigma_sq) as [|beta l] eqn:Hb.
      * cbn [splitting] in H. injection H as <-.
        destruct betas as [[|b l]|]; try discriminate Hb.
        exists y, x_init, Aty, sigma_sq, physics, bs, B, rest. repeat split; auto.
      * cbn [splitting] in H.
        destruct (_reconstruction_step pick get_cov get_cov_inv_reg classify
                    conjugate_gradient patch_size Aty x_init sigma_sq beta physics
                    match bs with Some b => b | None => (-1)%Z end) eqn:Hstep;
          try discriminate H.
        exfalso. exact (step_never_returns _ _ _ _ _ _ _ Hstep).
  - intros (y & x_init & Aty & sigma_sq & physics & bs & B & rest & -> & Hs & HB & HA & ->).
    cbn [reconstruction resolve_betas]. rewrite Hs.
    destruct (Nat.ltb_spec 1 B) as [H|_]; [lia|].
    rewrite HA. reflexivity.
Qed.

(** X17: for a non-zero [sigma_sq] the default schedule gives the weights
    [beta * sigma_sq = 1, 4, 8, 16, 32] in the linear system of line 105 and
    the covariance regularisations [1 / beta = sigma_sq / 1, 4, 8, 16, 32] of
    line 69. *)
Theorem default_schedule_weights (sigma_sq : R) :
  sigma_sq <> 0 ->
  map (fun beta => beta * sigma_sq) (default_betas sigma_sq) = [1; 4; 8; 16; 32] /\
  map (fun beta => 1 / beta) (default_betas sigma_sq)
  = [sigma_sq; sigma_sq / 4; sigma_sq / 8; sigma_sq / 16; sigma_sq / 32].
Proof.
  intros H. unfold default_betas. cbn [map]. split; vec_eq ltac:(field; exact H).
Qed.

Lemma default_schedule_weights_witness :
  3 <> 0 /\ map (fun beta => beta * 3) (default_betas 3) = [1; 4; 8; 16; 32].
Proof.
  assert (H : 3 <> 0) by lra. split; [exact H|].
  apply (default_schedule_weights 3 H).
Defined.

End MoreEPLL.

Section LoopFacts.
Import EPLL.

Variable pick : vec -> R.
Variable get_cov : list matrix.
Variable get_cov_inv_reg : R -> list matrix.
Variable classify : R -> vec -> nat.
Variable patch_size : nat.

Lemma mapM_halts {S T : Type} (f : S -> outcome T) (l : list S) :
  (forall a, f a <> Diverge) -> mapM f l <> Diverge.
Proof.
  intros Hf. induction l as [|a l IH]; [discriminate|].
  cbn [mapM]. specialize (Hf a). destruct (f a); try discriminate; [|contradiction].
  cbn [bind]. destruct (mapM f l); try discriminate. contradiction.
Qed.

Lemma gather_halts (t : vec) (idx : list nat) : gather t idx <> Diverge.
Proof.
  apply mapM_halts. intros i. destruct (i <? List.length t)%nat; discriminate.
Qed.

Lemma index_iadd_halts (t : vec) (idx : list nat) (vals : vec) :
  index_iadd pick t idx vals <> Diverge.
Proof.
  unfold index_iadd. pose proof (gather_halts t idx) as H.
  destruct (gather t idx); try discriminate. contradiction.
Qed.

Lemma batching_loop_halts (fuel : nat) (reg : R) (x : vec) (B C N M : nat)
      (batch_size total ind : Z) (acc : accum) :
  (1 <= batch_size)%Z ->
  (Z.to_nat (total - ind) <= fuel)%nat ->
  batching_loop pick get_cov get_cov_inv_reg classify patch_size
                fuel reg x B C N M batch_size total ind acc <> Diverge.
Proof.
  intros Hb. revert ind acc. induction fuel as [|fuel IH]; intros ind acc Hf.
  - cbn [batching_loop]. destruct (Z.ltb_spec ind total); [lia|discriminate].
  - cbn [batching_loop]. destruct (Z.ltb_spec ind total) as [Hlt|_]; [|discriminate].
    unfold patch_extractor.
    pose proof (mapM_halts (gather x)
                  (map (patch_linear_inds C N M patch_size)
                       (py_range ind (ind + Z.min batch_size (total - ind))))
                  (gather_halts x)) as Hp.
    destruct (mapM (gather x) _) as [patches| |]; try discriminate; [|contradiction].
    cbn [bind]. destruct (negb (B =? 1)%nat); [discriminate|].
    match goal with
    | |- context [mapM ?f ?l] =>
        assert (He : mapM f l <> Diverge)
          by (apply mapM_halts; intros [k p]; unfold estimate; cbn [fst snd];
              destruct (nth_error _ k); discriminate);
        destruct (mapM f l) as [est| |]; try discriminate; [|contradiction]
    end.
    cbn [bind]. cbv zeta.
    match goal with
    | |- context [index_iadd pick ?t ?i ?v] =>
        pose proof (index_iadd_halts t i v) as H1;
        destruct (index_iadd pick t i v) as [pm| |]; try discriminate; [|contradiction]
    end.
    cbn [bind].
    match goal with
    | |- context [index_iadd pick ?t ?i ?v] =>
        pose proof (index_iadd_halts t i v) as H2;
        destruct (index_iadd pick t i v) as [xt| |]; try discriminate; [|contradiction]
    end.
    cbn [bind]. apply IH. lia.
Qed.

(** X18: with a batch size of at least 1, or -1, the batching loop of
    [_reconstruction_step] always ends: every pass moves [ind] forward, so
    [total_patch_number] passes are enough. *)
Theorem x_tilde_halts (x : tensor) (beta : R) (batch_size : Z) :
  (1 <= batch_size)%Z \/ batch_size = (-1)%Z ->
  x_tilde pick get_cov get_cov_inv_reg classify patch_size x beta batch_size <> Diverge.
Proof.
  intros Hb. unfold x_tilde.
  destruct (shape x) as [|B [|C [|N [|M [|? ?]]]]]; try discriminate.
  set (total := ((Z.of_nat N - Z.of_nat patch_size + 1) *
                 (Z.of_nat M - Z.of_nat patch_size + 1))%Z).
  set (bs := if ((batch_size =? -1) || (total <? batch_size))%Z then total else batch_size).
  destruct (Z_le_gt_dec total 0) as [Ht|Ht].
  - destruct (Z.to_nat total) eqn:E; [|lia].
    cbn [batching_loop]. destruct (Z.ltb_spec 0 total); [lia|]. discriminate.
  - assert (Hbs : (1 <= bs)%Z).
    { subst bs. destruct ((batch_size =? -1) || (total <? batch_size))%Z eqn:E; [lia|].
      apply orb_false_iff in E. destruct E as [E _]. apply Z.eqb_neq in E. lia. }
    pose proof (batching_loop_halts (Z.to_nat total) (1 / beta) (data x) B C N M bs total 0
                  (mkAccum (zeros (List.length (data x))) (zeros (List.length (data x))))
                  Hbs) as H.
    destruct (batching_loop _ _ _ _ _ _ _ _ _ _ _ _ _ _ _) as [acc| |]; try discriminate.
    exfalso. apply H; [lia|reflexivity].
Qed.

End LoopFacts.

Lemma x_tilde_halts_witness :
  ((1 <= 1)%Z \/ 1%Z = (-1)%Z) /\
  EPLL.x_tilde last_write [J4] (fun reg => [J4_inv_reg reg]) (fun _ _ => 0%nat) 2
               img23 1 1 <> Diverge.
Proof.
  assert (H : (1 <= 1)%Z \/ 1%Z = (-1)%Z) by (left; lia).
  split; [exact H|].
  apply (x_tilde_halts last_write [J4] (fun reg => [J4_inv_reg reg]) (fun _ _ => 0%nat) 2
           img23 1 1 H).
Defined.

Section IndexFacts.
Import EPLL.

Variable pick : vec -> R.
Hypothesis pick_ok : keeps_a_write pick.

Lemma gather_ok (t : vec) (idx : list nat) :
  Forall (fun i => (i < List.length t)%nat) idx ->
  gather t idx = Ok (map (fun i => nth i t 0) idx).
Proof.
  unfold gather. induction 1 as [|i idx Hi _ IH]; [reflexivity|].
  cbn [mapM map]. destruct (Nat.ltb_spec i (List.length t)); [|lia].
  cbn [bind]. rewrite IH. reflexivity.
Qed.

Lemma candidates_absent (p : nat) (idx : list nat) (vals : vec) :
  ~ In p idx -> candidates p idx vals = [].
Proof.
  unfold candidates. revert vals. induction idx as [|i idx IH]; intros vals H; [reflexivity|].
  destruct vals as [|v vals]; [reflexivity|]. cbn [combine filter fst].
  destruct (Nat.eqb_spec i p) as [E|_]; [exfalso; apply H; left; exact E|].
  apply IH. intros Hin. apply H. right. exact Hin.
Qed.

Lemma candidates_unique (j : nat) (idx : list nat) (vals : vec) :
  NoDup idx -> List.length vals = List.length idx -> (j < List.length idx)%nat ->
  candidates (nth j idx 0%nat) idx vals = [nth j vals 0].
Proof.
  intros Hnd. revert j vals. induction Hnd as [|i idx Hi Hnd IH]; intros j vals Hl Hj;
    [simpl in Hj; lia|].
  destruct vals as [|v vals]; [discriminate Hl|].
  unfold candidates. cbn [combine filter fst]. destruct j as [|j]; cbn [nth].
  - rewrite Nat.eqb_refl. cbn [map snd]. f_equal.
    apply (candidates_absent i idx vals Hi).
  - destruct (Nat.eqb_spec i (nth j idx 0%nat)) as [E|_].
    + exfalso. apply Hi. rewrite E. apply nth_In. simpl in Hj. lia.
    + apply IH; simpl in Hl, Hj; lia.
Qed.

(** X19: when no index occurs twice and all are in range, the update
    [t[idx] += vals] of lines 98-99 is an exact addition: position [idx[j]]
    grows by [vals[j]], every other position is untouched and the length is
    kept, however duplicate writes would be resolved. *)
Theorem index_iadd_without_duplicates (t : vec) (idx : list nat) (vals : vec) :
  NoDup idx ->
  Forall (fun i => (i < List.length t)%nat) idx ->
  List.length vals = List.length idx ->
  exists t' : vec,
    index_iadd pick t idx vals = Ok t' /\
    List.length t' = List.length t /\
    (forall j, (j < List.length idx)%nat ->
               nth (nth j idx 0%nat) t' 0 = nth (nth j idx 0%nat) t 0 + nth j vals 0) /\
    (forall p, ~ In p idx -> nth p t' 0 = nth p t 0).
Proof.
  intros Hnd Hin Hl. unfold index_iadd. rewrite gather_ok by exact Hin. cbn [bind].
  eexists. split; [reflexivity|].
  assert (Hlv : List.length (vadd (map (fun i => nth i t 0) idx) vals) = List.length idx).
  { rewrite vadd_length; rewrite length_map; auto. }
  unfold index_put. split; [rewrite length_map, length_seq; reflexivity|]. split.
  - intros j Hj.
    assert (Hp : (nth j idx 0%nat < List.length t)%nat).
    { rewrite Forall_forall in Hin. apply Hin. apply nth_In. exact Hj. }
    rewrite nth_map_seq by exact Hp.
    rewrite candidates_unique by (try assumption; lia).
    rewrite (pick_single pick _ pick_ok).
    rewrite nth_vadd by (rewrite length_map; lia).
    f_equal. rewrite (nth_indep _ 0 ((fun i => nth i t 0) 0%nat)) by (rewrite length_map; exact Hj).
    apply (map_nth (fun i => nth i t 0)).
  - intros p Hp. destruct (Nat.lt_ge_cases p (List.length t)) as [H|H].
    + rewrite nth_map_seq by exact H. rewrite candidates_absent by exact Hp. reflexivity.
    + rewrite !nth_overflow; [reflexivity|lia|rewrite length_map, length_seq; lia].
Qed.

End IndexFacts.

Lemma index_iadd_without_duplicates_witness :
  keeps_a_write last_write /\
  exists t' : vec,
    EPLL.index_iadd last_write [10; 20; 30] [2; 0]%nat [1; 5] = Ok t' /\
    List.length t' = 3%nat.
Proof.
  split; [exact last_write_keeps|].
  destruct (index_iadd_without_duplicates last_write last_write_keeps
              [10; 20; 30] [2; 0]%nat [1; 5]) as (t' & H & L & _).
  - repeat constructor; simpl; intuition lia.
  - repeat constructor.
  - reflexivity.
  - exists t'. split; [exact H|exact L].
Defined.

(** ** The constructor of the patch prior *)

Section InitFacts.
Import EPLLInit.

Lemma substring_skip (pre t : string) (k : nat) :
  String.substring (String.length pre) k (pre ++ t) = String.substring 0 k t.
Proof. induction pre as [|a pre IH]; [reflexivity|]. simpl. exact IH. Qed.

Lemma substring_all (t : string) (k : nat) :
  (String.length t <= k)%nat -> String.substring 0 k t = t.
Proof.
  revert k. induction t as [|a t IH]; intros k H.
  - destruct k; reflexivity.
  - destruct k as [|k]; [simpl in H; lia|]. simpl. rewrite IH by (simpl in H; lia).
    reflexivity.
Qed.

Lemma split_at (n : nat) (s : string) :
  (n <= String.length s)%nat ->
  exists pre t, s = (pre ++ t)%string /\ String.length pre = n /\
                String.length t = (String.length s - n)%nat.
Proof.
  revert s. induction n as [|n IH]; intros s H.
  - exists EmptyString, s. repeat split. simpl. lia.
  - destruct s as [|a s]; [simpl in H; lia|].
    destruct (IH s) as (pre & t & E & L & Lt); [simpl in H; lia|].
    exists (String a pre), t. subst s. repeat split; simpl; auto.
Qed.

Lemma length_append (a b : string) :
  String.length (a ++ b) = (String.length a + String.length b)%nat.
Proof. induction a as [|c a IH]; [reflexivity|]. simpl. rewrite IH. reflexivity. Qed.

Lemma last_chars_suffix (s suffix : string) :
  last_chars (String.length suffix) s = suffix /\ (String.length suffix <= String.length s)%nat
  <-> exists pre, s = (pre ++ suffix)%string.
Proof.
  unfold last_chars. split.
  - intros [H Hl].
    destruct (split_at (String.length s - String.length suffix) s) as (pre & t & E & L & Lt);
      [lia|].
    exists pre. rewrite E in H at 2. rewrite <- L in H at 1.
    rewrite substring_skip, substring_all in H by lia. congruence.
  - intros [pre ->]. rewrite length_append. split; [|lia].
    replace (String.length pre + String.length suffix - String.length suffix)%nat
      with (String.length pre) by lia.
    rewrite substring_skip. apply substring_all. lia.
Qed.

Lemma last_chars_pt (path : string) :
  last_chars 3 path = ".pt"%string <-> exists pre, path = (pre ++ ".pt")%string.
Proof.
  pose proof (last_chars_suffix path ".pt") as Hsuf. cbn [String.length] in Hsuf.
  split.
  - intros E. apply Hsuf. split; [exact E|].
    unfold last_chars in E. destruct path as [|a [|b [|c path]]]; simpl; try lia;
      simpl in E; discriminate E.
  - intros H. apply Hsuf. exact H.
Qed.

(** X20: the constructor raises [NotImplementedError] exactly when the
    mixture is given or can be built and the path of pretrained weights is a
    non-empty string that does not end in ".pt"; for an absent or an empty
    path it loads nothing and keeps the mixture it was given. *)
Theorem init_refuses_other_extensions
        (GMM weights error : Type) (mk : Z -> Z -> error + GMM)
        (load : string -> error + weights)
        (put : GMM -> weights -> error + GMM)
        (g : option GMM) (pw : option string) (patch_size channels : Z) :
  (init GMM weights error mk load put g pw patch_size channels
   = NotImplementedError GMM error
   <-> (exists path, pw = Some path /\ path <> EmptyString /\
                     ~ exists pre, path = (pre ++ ".pt")%string) /\
       (g = None -> exists g0, mk 200%Z (patch_size ^ 2 * channels)%Z = inr g0)) /\
  (forall g0, g = Some g0 -> pw = None \/ pw = Some EmptyString ->
   init GMM weights error mk load put g pw patch_size channels
   = Built GMM error (mkEPLL GMM g0 patch_size)).
Proof.
  split.
  - unfold init.
    set (made := match g with
                 | None => mk 200%Z (patch_size ^ 2 * channels)%Z
                 | Some g0 => inr g0
                 end).
    assert (Hmade : (exists g1, made = inr g1) <->
                    (g = None -> exists g0, mk 200%Z (patch_size ^ 2 * channels)%Z = inr g0)).
    { subst made. destruct g as [g0|].
      - split; [intros _ E; discriminate E|intros _; exists g0; reflexivity].
      - split; [intros H _; exact H|intros H; exact (H eq_refl)]. }
    rewrite <- Hmade. clear Hmade.
    destruct made as [e|g1].
    + split; [discriminate|]. intros [_ [g0 E]]. discriminate E.
    + destruct pw as [path|].
      * destruct (String.eqb_spec path EmptyString) as [E|Hne].
        -- split; [discriminate|]. intros [(p & Hp & Hn & _) _]. congruence.
        -- destruct (String.eqb_spec (last_chars 3 path) ".pt") as [E|E].
           ++ split.
              ** destruct (load path) as [e|w]; [discriminate|].
                 destruct (put g1 w); discriminate.
              ** intros [(p & Hp & _ & Hn) _]. exfalso. apply Hn.
                 injection Hp as <-. apply last_chars_pt. exact E.
           ++ split; [|reflexivity]. intros _. split; [|exists g1; reflexivity].
              exists path. repeat split; [exact Hne|].
              intros Hex. apply E. apply last_chars_pt. exact Hex.
      * split; [discriminate|]. intros [(p & Hp & _) _]. discriminate Hp.
  - intros g0 -> [-> | ->]; reflexivity.
Qed.

Lemma init_refuses_other_extensions_witness :
  init unit unit unit (fun _ _ => inr tt) (fun _ => inr tt) (fun _ _ => inr tt)
       (Some tt) (Some EmptyString) 6 1
  = Built unit unit (mkEPLL unit tt 6).
Proof.
  apply (proj2 (init_refuses_other_extensions unit unit unit (fun _ _ => inr tt)
                  (fun _ => inr tt) (fun _ _ => inr tt) (Some tt) (Some EmptyString) 6 1)
               tt eq_refl).
  right. reflexivity.
Defined.

End InitFacts.

(** ** The patch dataset *)

Section PatchDataFacts.
Import PatchData.
Open Scope Z_scope.

Lemma position_bounds (H W p B idx : Z) :
  1 <= p <= H -> p <= W ->
  0 <= idx < B * ((H - p + 1) * (W - p + 1)) ->
  let '(b, r, c) := position ((H - p + 1) * (W - p + 1)) (W - p + 1) idx in
  0 <= b < B /\ 0 <= r /\ r + p <= H /\ 0 <= c /\ c + p <= W /\
  idx = b * ((H - p + 1) * (W - p + 1)) + r * (W - p + 1) + c.
Proof.
  intros Hp Hw Hidx. unfold position.
  set (h := H - p + 1) in *. set (w := W - p + 1) in *.
  assert (Hh : 0 < h) by (subst h; lia). assert (Hw0 : 0 < w) by (subst w; lia).
  assert (Hppi : 0 < h * w) by nia.
  pose proof (Z.div_mod idx (h * w) ltac:(lia)) as E1.
  pose proof (Z.mod_pos_bound idx (h * w) Hppi) as B1.
  pose proof (Z.div_mod (idx mod (h * w)) w ltac:(lia)) as E2.
  pose proof (Z.mod_pos_bound (idx mod (h * w)) w Hw0) as B2.
  assert (0 <= idx / (h * w)) by (apply Z.div_pos; lia).
  assert (idx / (h * w) < B) by (apply Z.div_lt_upper_bound; nia).
  assert (0 <= (idx mod (h * w)) / w) by (apply Z.div_pos; lia).
  assert ((idx mod (h * w)) / w < h) by (apply Z.div_lt_upper_bound; nia).
  repeat split; try lia; nia.
Qed.

(** X21: for a patch size that fits the images and an index below
    [__len__], the three indices computed by [__getitem__] name a patch that
    lies inside image [b]: [0 <= b < B], rows [r .. r + p) within the height
    and columns [c .. c + p) within the width, and the index is recovered as
    [b * patches_per_image + r * (W - p + 1) + c]. *)
Theorem position_round_trip (H W p B idx : Z) :
  1 <= p <= H -> p <= W ->
  0 <= idx < B * ((H - p + 1) * (W - p + 1)) ->
  let '(b, r, c) := position ((H - p + 1) * (W - p + 1)) (W - p + 1) idx in
  0 <= b < B /\ 0 <= r /\ r + p <= H /\ 0 <= c /\ c + p <= W /\
  idx = b * ((H - p + 1) * (W - p + 1)) + r * (W - p + 1) + c.
Proof. exact (position_bounds H W p B idx). Qed.

Lemma position_round_trip_witness :
  (1 <= 2 <= 4 /\ 2 <= 5 /\ 0 <= 17 < 2 * ((4 - 2 + 1) * (5 - 2 + 1))) /\
  let '(b, r, c) := position ((4 - 2 + 1) * (5 - 2 + 1)) (5 - 2 + 1) 17 in
  0 <= b < 2 /\ 0 <= r /\ r + 2 <= 4 /\ 0 <= c /\ c + 2 <= 5 /\
  17 = b * ((4 - 2 + 1) * (5 - 2 + 1)) + r * (5 - 2 + 1) + c.
Proof.
  split; [lia|].
  apply (position_round_trip 4 5 2 2 17); lia.
Defined.

(** X22: conversely every patch position inside an image is reached: the
    index [b * patches_per_image + r * (W - p + 1) + c] is decomposed by
    [__getitem__] into [(b, r, c)]. *)
Theorem position_of_offsets (H W p b r c : Z) :
  1 <= p <= H -> p <= W ->
  0 <= r -> r + p <= H -> 0 <= c -> c + p <= W ->
  position ((H - p + 1) * (W - p + 1)) (W - p + 1)
           (b * ((H - p + 1) * (W - p + 1)) + r * (W - p + 1) + c)
  = (b, r, c).
Proof.
  intros Hp Hw Hr Hr' Hc Hc'. unfold position.
  set (h := H - p + 1) in *. set (w := W - p + 1) in *.
  assert (Hin : 0 <= r * w + c < h * w) by nia.
  assert (E1 : (b * (h * w) + r * w + c) / (h * w) = b).
  { symmetry. apply (Z.div_unique _ _ b (r * w + c)); [left; exact Hin|ring]. }
  assert (E2 : (b * (h * w) + r * w + c) mod (h * w) = r * w + c).
  { symmetry. apply (Z.mod_unique _ _ b (r * w + c)); [left; exact Hin|ring]. }
  rewrite E1, E2.
  assert (E3 : (r * w + c) / w = r).
  { symmetry. apply (Z.div_unique _ _ r c); [left; lia|ring]. }
  assert (E4 : (r * w + c) mod w = c).
  { symmetry. apply (Z.mod_unique _ _ r c); [left; lia|ring]. }
  rewrite E3, E4. reflexivity.
Qed.

Lemma position_of_offsets_witness :
  (1 <= 2 <= 4 /\ 2 <= 5 /\ 0 <= 1 /\ 1 + 2 <= 4 /\ 0 <= 3 /\ 3 + 2 <= 5) /\
  position ((4 - 2 + 1) * (5 - 2 + 1)) (5 - 2 + 1)
           (1 * ((4 - 2 + 1) * (5 - 2 + 1)) + 1 * (5 - 2 + 1) + 3) = (1, 1, 3).
Proof.
  split; [lia|].
  apply (position_of_offsets 4 5 2 1 1 3); lia.
Defined.

Lemma flat_map_length_uniform {S T : Type} (f : S -> list T) (k : nat) (l : list S) :
  (forall a, List.length (f a) = k) -> List.length (flat_map f l) = (List.length l * k)%nat.
Proof.
  intros Hf. induction l as [|a l IH]; [reflexivity|].
  cbn [flat_map]. rewrite length_app, Hf, IH. reflexivity.
Qed.

Lemma py_slice_inside (a p : Z) (n : nat) :
  0 <= a -> 0 <= p -> a + p <= Z.of_nat n ->
  py_slice a (a + p) n = seq (Z.to_nat a) (Z.to_nat p).
Proof.
  intros Ha Hp Hn. unfold py_slice, slice_bound.
  destruct (Z.ltb_spec a 0); [lia|]. destruct (Z.ltb_spec (a + p) 0); [lia|].
  rewrite !Z.min_l by lia. f_equal. lia.
Qed.

(** X23: on a dataset built by [__init__] from a tensor of four or more
    dimensions, with a patch size that fits and an index below [__len__],
    [__getitem__] returns the index unchanged and the entries of the [p x p]
    window at the computed position, channel by channel, and never applies
    the transforms, whichever were given. *)
Theorem getitem_in_range (flip_and_rotate : vec -> vec) (x : tensor) (p : Z)
        (t : transforms_arg) (ds : PatchDataset) (B C H W : nat) (rest : list nat)
        (idx : Z) :
  init flip_and_rotate x p t = inr ds ->
  shape x = B :: C :: H :: W :: rest ->
  1 <= p <= Z.of_nat H -> p <= Z.of_nat W ->
  0 <= idx < Z.of_nat B * ((Z.of_nat H - p + 1) * (Z.of_nat W - p + 1)) ->
  exists b r c : nat,
    position ((Z.of_nat H - p + 1) * (Z.of_nat W - p + 1)) (Z.of_nat W - p + 1) idx
    = (Z.of_nat b, Z.of_nat r, Z.of_nat c) /\
    (b < B)%nat /\ (r + Z.to_nat p <= H)%nat /\ (c + Z.to_nat p <= W)%nat /\
    len ds = inr (Z.of_nat B * ((Z.of_nat H - p + 1) * (Z.of_nat W - p + 1))) /\
    exists patch : vec,
      getitem ds idx = inr (patch, idx) /\
      List.length patch
      = (C * (Z.to_nat p * (Z.to_nat p * fold_right Nat.mul 1%nat rest)))%nat /\
      patch =
        flat_map (fun ch =>
          flat_map (fun i =>
            flat_map (fun j =>
              map (fun k =>
                     nth ((((b * C + ch) * H + i) * W + j) * fold_right Nat.mul 1%nat rest + k)%nat
                         (data x) 0%R)
                  (seq 0 (fold_right Nat.mul 1%nat rest)))
              (seq c (Z.to_nat p)))
            (seq r (Z.to_nat p)))
          (seq 0 C).
Proof.
  intros Hinit Hs Hp Hw Hidx.
  pose proof (position_bounds (Z.of_nat H) (Z.of_nat W) p (Z.of_nat B) idx Hp Hw Hidx) as Hb.
  set (ppi := (Z.of_nat H - p + 1) * (Z.of_nat W - p + 1)) in *.
  set (w := Z.of_nat W - p + 1) in *.
  destruct (position ppi w idx) as [[bi ri] ci] eqn:Hpos.
  destruct Hb as (Hb1 & Hr1 & Hr2 & Hc1 & Hc2 & Hidx').
  exists (Z.to_nat bi), (Z.to_nat ri), (Z.to_nat ci).
  rewrite !Z2Nat.id by lia. split; [reflexivity|].
  split; [lia|]. split; [lia|]. split; [lia|].
  assert (Hds : imgs ds = x /\ patch_size ds = p /\ patches_per_image ds = ppi).
  { unfold init, dim in Hinit. rewrite Hs in Hinit. cbn [nth_error] in Hinit.
    fold ppi in Hinit.
    destruct t as [|s|f]; [|destruct (occurs_in s "flip and rotate"); [|discriminate Hinit]|];
      injection Hinit as <-; repeat split; reflexivity. }
  destruct Hds as (Hi & Hps & Hppi).
  split; [unfold len, dim; rewrite Hi, Hs, Hppi; reflexivity|].
  eexists. split; [|split; [|reflexivity]].
  - unfold getitem, dim. rewrite Hi, Hs, Hps, Hppi. cbn [nth_error]. fold w.
    destruct (Z.eqb_spec ppi 0) as [E|_]; [subst ppi; nia|].
    destruct (Z.eqb_spec w 0) as [E|_]; [subst w; lia|].
    rewrite Hpos.
    destruct (Z.ltb_spec bi (- Z.of_nat B)) as [E|_]; [lia|].
    destruct (Z.leb_spec (Z.of_nat B) bi) as [E|_]; [lia|]. cbn [orb].
    rewrite Z.mod_small by lia.
    rewrite !py_slice_inside by lia.
    destruct (transforms ds); reflexivity.
  - rewrite (flat_map_length_uniform _ (Z.to_nat p * (Z.to_nat p * fold_right Nat.mul 1%nat rest))),
      length_seq; [reflexivity|].
    intros ch.
    rewrite (flat_map_length_uniform _ (Z.to_nat p * fold_right Nat.mul 1%nat rest)), length_seq;
      [reflexivity|].
    intros i. rewrite (flat_map_length_uniform _ (fold_right Nat.mul 1%nat rest)), length_seq;
      [reflexivity|].
    intros j. rewrite length_map, length_seq. reflexivity.
Qed.

Lemma getitem_in_range_witness :
  init (fun v => v) img123456 2 (Named "flip and rotate")
  = inr (mkDataset img123456 2 2 (Some (fun v => v))) /\
  exists patch : vec,
    getitem (mkDataset img123456 2 2 (Some (fun v => v))) 1 = inr (patch, 1) /\
    List.length patch = 4%nat.
Proof.
  split; [reflexivity|].
  destruct (getitem_in_range (fun v => v) img123456 2 (Named "flip and rotate")
              (mkDataset img123456 2 2 (Some (fun v => v))) 1 1 2 3 [] 1 eq_refl eq_refl)
    as (b & r & c & _ & _ & _ & _ & _ & patch & Hg & Hl & _); try lia.
  exists patch. split; [exact Hg|exact Hl].
Defined.

End PatchDataFacts.

(** ** The loss of one batch *)

Section TrainingFacts.
Import Training.

Lemma prefix_sure (n : string) :
  String.prefix "sure" n = true -> exists s, n = ("sure" ++ s)%string.
Proof.
  intros H.
  destruct n as [|a n]; [discriminate H|]. cbn [String.prefix] in H.
  match type of H with
  | context [Ascii.ascii_dec ?x ?y] =>
      destruct (Ascii.ascii_dec x y) as [<-|]; [|discriminate H]
  end.
  destruct n as [|b n]; [discriminate H|]. cbn [String.prefix] in H.
  match type of H with
  | context [Ascii.ascii_dec ?x ?y] =>
      destruct (Ascii.ascii_dec x y) as [<-|]; [|discriminate H]
  end.
  destruct n as [|c n]; [discriminate H|]. cbn [String.prefix] in H.
  match type of H with
  | context [Ascii.ascii_dec ?x ?y] =>
      destruct (Ascii.ascii_dec x y) as [<-|]; [|discriminate H]
  end.
  destruct n as [|d n]; [discriminate H|]. cbn [String.prefix] in H.
  match type of H with
  | context [Ascii.ascii_dec ?x ?y] =>
      destruct (Ascii.ascii_dec x y) as [<-|]; [|discriminate H]
  end.
  exists n. reflexivity.
Qed.

Lemma add_loss_tensor (v : R) (l : loss_fn) (w : R) :
  exists v', add_loss (Tensor v) l w = Tensor v'.
Proof.
  unfold add_loss.
  destruct (String.eqb (name l) "mc"); destruct (String.eqb (name l) "ms");
    destruct (String.eqb (name l) "sup"); destruct (String.prefix "sure" (name l));
    destruct (String.eqb (name l) "ei" || String.eqb (name l) "rei");
    cbn [iadd]; eexists; reflexivity.
Qed.

Lemma add_loss_int_zero (l : loss_fn) (w : R) :
  add_loss IntZero l w = IntZero <-> recognised (name l) = false.
Proof.
  unfold add_loss, recognised.
  destruct (String.eqb (name l) "mc"); destruct (String.eqb (name l) "ms");
    destruct (String.eqb (name l) "sup"); destruct (String.prefix "sure" (name l));
    destruct (String.eqb (name l) "ei"); destruct (String.eqb (name l) "rei");
    cbn [iadd orb]; split; intros H; try discriminate H; reflexivity.
Qed.

Lemma fold_tensor (zipped : list (loss_fn * R)) (v : R) :
  exists v', fold_left (fun loss lw => add_loss loss (fst lw) (snd lw)) zipped (Tensor v)
             = Tensor v'.
Proof.
  revert v. induction zipped as [|[l w] zipped IH]; intros v.
  - exists v. reflexivity.
  - cbn [fold_left fst snd]. destruct (add_loss_tensor v l w) as [v' ->]. apply IH.
Qed.

(** X24: the five tests exclude one another: every loss adds at most one
    term, on the arguments its name selects, and a loss whose name no test
    accepts adds nothing. *)
Theorem each_loss_adds_one_term_by_name (loss : loss_value) (l : loss_fn) (w : R) :
  (name l = "mc"%string -> add_loss loss l w = iadd loss (w * run l On_x1_y0)) /\
  (name l = "ms"%string -> add_loss loss l w = iadd loss (w * run l On_y0_f)) /\
  (name l = "sup"%string -> add_loss loss l w = iadd loss (w * run l On_x1_x)) /\
  (String.prefix "sure" (name l) = true ->
   add_loss loss l w = iadd loss (w * run l On_y0_y1_f)) /\
  (name l = "ei"%string \/ name l = "rei"%string ->
   add_loss loss l w = iadd loss (w * run l On_x1_f)) /\
  (recognised (name l) = false -> add_loss loss l w = loss).
Proof.
  unfold add_loss, recognised. repeat split.
  - intros ->. reflexivity.
  - intros ->. reflexivity.
  - intros ->. reflexivity.
  - intros H. rewrite H. destruct (prefix_sure _ H) as [s ->]. reflexivity.
  - intros [-> | ->]; reflexivity.
  - intros H. repeat (apply orb_false_iff in H; destruct H as [H ?]).
    repeat match goal with E : _ = false |- _ => rewrite E; clear E end.
    reflexivity.
Qed.

Lemma train_loss_int_zero (ls : list loss_fn) (ws : list R) :
  item (train_loss ls ws) = inl AttributeError
  <-> Forall (fun lw => recognised (name (fst lw)) = false) (combine ls ws).
Proof.
  unfold train_loss.
  induction (combine ls ws) as [|[l w] zipped IH].
  - split; [constructor|reflexivity].
  - cbn [fold_left fst snd].
    destruct (add_loss IntZero l w) as [|v] eqn:E.
    + apply add_loss_int_zero in E. rewrite IH. split.
      * intros H. constructor; assumption.
      * intros H. inversion H. assumption.
    + destruct (fold_tensor zipped v) as [v' ->]. cbn [item]. split; [discriminate|].
      intros H. inversion H as [|? ? Hl _]. cbn [fst] in Hl.
      apply (proj2 (add_loss_int_zero l w)) in Hl. congruence.
Qed.

(** X25: the step of [train] fails with [TypeError] exactly when one of the
    two loss arguments is left at [None], and at [loss.item()] exactly when
    both are lists and no loss that the zip reaches has a recognised name,
    [loss] then still being the integer 0; it fails in no other way. *)
Theorem train_batch_outcomes
        (loss_closure : option (list loss_fn)) (loss_weight : option (list R)) :
  (train_batch loss_closure loss_weight = inl TypeError
   <-> loss_closure = None \/ loss_weight = None) /\
  (train_batch loss_closure loss_weight = inl AttributeError
   <-> exists ls ws, loss_closure = Some ls /\ loss_weight = Some ws /\
         Forall (fun lw => recognised (name (fst lw)) = false) (combine ls ws)) /\
  (forall var, train_batch loss_closure loss_weight <> inl (UnboundLocalError var)).
Proof.
  unfold train_batch.
  destruct loss_closure as [ls|]; destruct loss_weight as [ws|];
    try (split; [split; [intros _; auto|reflexivity]
                |split; [split; [discriminate|intros (? & ? & E1 & E2 & _); discriminate]
                        |discriminate]]).
  split; [|split].
  - split; [|intros [E|E]; discriminate E].
    destruct (train_loss ls ws); discriminate.
  - rewrite train_loss_int_zero. split.
    + intros H. exists ls, ws. auto.
    + intros (ls' & ws' & E1 & E2 & H). injection E1 as <-. injection E2 as <-. exact H.
  - intros var. destruct (train_loss ls ws); discriminate.
Qed.

Lemma debug_loop_tensor (zipped : list (loss_fn * R * string)) (v : R)
      (log : list (string * R)) :
  exists v' log', debug_loop zipped (Tensor v) log = inr (Tensor v', log').
Proof.
  revert v log. induction zipped as [|[[l w] m] zipped IH]; intros v log.
  - exists v, log. reflexivity.
  - cbn [debug_loop]. destruct (add_loss_tensor v l w) as [v' ->]. cbn [item]. apply IH.
Qed.

(** X26: a batch of [debug] gets through its loss loop exactly when
    [verbos] is set, both loss arguments are non-empty lists and the first
    loss has a recognised name; without [verbos] it always fails, the name
    [losses_verbos] being unbound. *)
Theorem debug_batch_returns_iff
        (verbos : bool) (loss_closure : option (list loss_fn))
        (loss_weight : option (list R)) :
  ((exists r, debug_batch verbos loss_closure loss_weight = inr r)
   <-> verbos = true /\
       exists l w ls ws, loss_closure = Some (l :: ls) /\ loss_weight = Some (w :: ws) /\
                         recognised (name l) = true) /\
  (verbos = false ->
   debug_batch verbos loss_closure loss_weight = inl (UnboundLocalError "losses_verbos")).
Proof.
  split; [|intros ->; reflexivity].
  unfold debug_batch, verbose_meters. split.
  - intros [r H]. destruct verbos; [|discriminate H]. split; [reflexivity|].
    destruct loss_closure as [[|l ls]|]; try discriminate H;
      destruct loss_weight as [[|w ws]|]; try discriminate H.
    exists l, w, ls, ws. split; [reflexivity|]. split; [reflexivity|].
    cbn [map combine debug_loop] in H.
    destruct (add_loss IntZero l w) as [|v] eqn:E; [discriminate H|].
    destruct (recognised (name l)) eqn:Hr; [reflexivity|].
    apply (proj2 (add_loss_int_zero l w)) in Hr. congruence.
  - intros [-> (l & w & ls & ws & -> & -> & Hr)].
    cbn [map combine debug_loop].
    destruct (add_loss IntZero l w) as [|v] eqn:E.
    + apply add_loss_int_zero in E. congruence.
    + cbn [item].
      destruct (debug_loop_tensor
                  (combine (combine ls ws) (map (fun l0 => ("loss_" ++ name l0)%string) ls))
                  v ([] ++ [(("loss_" ++ name l)%string, v)])) as (v' & log' & ->).
      cbn [item]. eexists. reflexivity.
Qed.

Lemma debug_loop_log (mk : loss_fn -> string) (ls : list loss_fn) (ws : list R)
      (loss loss' : loss_value) (log log' : list (string * R)) :
  debug_loop (combine (combine ls ws) (map mk ls)) loss log = inr (loss', log') ->
  loss' = fold_left (fun a lw => add_loss a (fst lw) (snd lw)) (combine ls ws) loss /\
  List.length log' = (List.length log + Nat.min (List.length ls) (List.length ws))%nat /\
  (forall k, (k < List.length log)%nat -> nth_error log' k = nth_error log k) /\
  (forall k l, (k < List.length ws)%nat -> nth_error ls k = Some l ->
     exists v,
       nth_error log' (List.length log + k) = Some (mk l, v) /\
       item (fold_left (fun a lw => add_loss a (fst lw) (snd lw))
                       (combine (firstn (S k) ls) (firstn (S k) ws)) loss) = inr v).
Proof.
  revert ws loss log. induction ls as [|l ls IH]; intros ws loss log H.
  - cbn in H. injection H as <- <-. cbn. repeat split; try lia.
    intros k l _ Hk. destruct k; discriminate Hk.
  - destruct ws as [|w ws].
    + cbn in H. injection H as <- <-. cbn. repeat split; lia.
    + cbn [map combine debug_loop] in H.
      destruct (item (add_loss loss l w)) as [e|x] eqn:Hx; [discriminate H|].
      apply IH in H. destruct H as (Hl & Hn & Hpre & Hk).
      rewrite length_app in Hn, Hpre, Hk. cbn [List.length] in Hn, Hpre, Hk.
      cbn [combine fold_left fst snd List.length]. split; [exact Hl|].
      split; [rewrite Hn; cbn [Nat.min]; lia|]. split.
      * intros k Hlt. rewrite Hpre by lia. apply nth_error_app1. exact Hlt.
      * intros [|k] l0 Hlt Hl0.
        -- cbn in Hl0. injection Hl0 as <-. exists x. split.
           ++ rewrite Nat.add_0_r, Hpre by lia. rewrite nth_error_app2 by lia.
              rewrite Nat.sub_diag. reflexivity.
           ++ cbn. exact Hx.
        -- cbn in Hl0. destruct (Hk k l0 ltac:(cbn in Hlt; lia) Hl0) as (v & Hv & Hi).
           exists v. split.
           ++ replace (List.length log + S k)%nat with (List.length log + 1 + k)%nat by lia.
              exact Hv.
           ++ exact Hi.
Qed.

(** X27: when a batch of [debug] gets through, the value handed to
    [losses.update] is the one [train] computes from the same lists, and the
    meter of the [k]-th loss is given the running total after [k + 1] losses,
    not the value of that loss. *)
Theorem verbose_meters_get_running_totals
        (loss_closure : list loss_fn) (loss_weight : list R)
        (log : list (string * R)) (x : R) :
  debug_batch true (Some loss_closure) (Some loss_weight) = inr (log, x) ->
  train_batch (Some loss_closure) (Some loss_weight) = inr x /\
  List.length log = Nat.min (List.length loss_closure) (List.length loss_weight) /\
  forall k l, (k < List.length loss_weight)%nat -> nth_error loss_closure k = Some l ->
    exists v,
      nth_error log k = Some (("loss_" ++ name l)%string, v) /\
      train_batch (Some (firstn (S k) loss_closure)) (Some (firstn (S k) loss_weight))
      = inr v.
Proof.
  unfold debug_batch, verbose_meters, train_batch, train_loss. intros H.
  destruct (debug_loop _ IntZero []) as [e|[loss log0]] eqn:E; [discriminate H|].
  destruct (item loss) as [e|x0] eqn:Hx; [discriminate H|].
  injection H as <- <-.
  apply debug_loop_log in E. destruct E as (Hl & Hn & _ & Hk).
  subst loss. split; [exact Hx|]. split; [exact Hn|].
  intros k l Hlt Hnth. exact (Hk k l Hlt Hnth).
Qed.

Lemma verbose_meters_get_running_totals_witness :
  debug_batch true (Some two_losses) (Some [1; 10])
  = inr ([("loss_mc"%string, 0 + 1 * 2); ("loss_sup"%string, 0 + 1 * 2 + 10 * 3)],
         0 + 1 * 2 + 10 * 3) /\
  train_batch (Some two_losses) (Some [1; 10]) = inr (0 + 1 * 2 + 10 * 3).
Proof.
  assert (H : debug_batch true (Some two_losses) (Some [1; 10])
              = inr ([("loss_mc"%string, 0 + 1 * 2); ("loss_sup"%string, 0 + 1 * 2 + 10 * 3)],
                     0 + 1 * 2 + 10 * 3)) by reflexivity.
  split; [exact H|].
  apply (proj1 (verbose_meters_get_running_totals two_losses [1; 10] _ _ H)).
Defined.

End TrainingFacts.
